(** * The voice chat widget (VoiceChat component): transcript, inbound
    dispatch, playback queue, capture pipeline, text send and the
    hands-free turn controller.

    The component keeps its data in React state (isRecording, isConnected,
    isHandsFree, messages, inputText) and in mutable refs (websocketRef,
    mediaRecorderRef, audioQueueRef, ...).  Every function of the component
    is a closure of one render: it reads the React state of that render and
    the current contents of the refs.  The embedding therefore passes the
    values of the render ([Render]) as an argument and threads the refs and
    the browser objects they point to through an explicit state. *)

From Stdlib Require Import String Ascii List ZArith QArith Lia Bool.
From stdpp Require Import base list.
Import ListNotations.

Local Open Scope Z_scope.

(** ** JavaScript values that reach the transcript *)

(** [data.text] of an inbound frame is a string or is missing. *)
Inductive JsText :=
| undefined
| str (s : string).

(** ToString, as applied by [+] when one operand is a string. *)
Definition toString (t : JsText) : string :=
  match t with
  | undefined => "undefined"%string
  | str s => s
  end.

(** Truthiness of a string-or-undefined value: only a non-empty string. *)
Definition truthy (t : JsText) : bool :=
  match t with
  | str (String _ _) => true
  | _ => false
  end.

(** ** Transcript *)

Inductive Sender := user | agent | system.

Definition Sender_eqb (a b : Sender) : bool :=
  match a, b with
  | user, user | agent, agent | system, system => true
  | _, _ => false
  end.

(** [time] is the clock reading the entry was created at (the source stores
    its local-time rendering). *)
Record Message := { sender : Sender; text : JsText; time : Z }.

(** [{ ...lastMsg, text: lastMsg.text + " " + text }] *)
Definition merged (lastMsg : Message) (t : JsText) : Message :=
  {| sender := sender lastMsg;
     text := str (toString (text lastMsg) ++ " " ++ toString t)%string;
     time := time lastMsg |}.

(** The updater handed to [setMessages] by [addMessage(sender, text)];
    [now] is the clock at the call. *)
Definition addMessage (now : Z) (s : Sender) (t : JsText) (prev : list Message)
  : list Message :=
  match last prev with
  | Some lastMsg =>
      if Sender_eqb (sender lastMsg) s && negb (Sender_eqb s system)
      then <[ (length prev - 1)%nat := merged lastMsg t ]> prev
      else prev ++ [ {| sender := s; text := t; time := now |} ]
  | None => prev ++ [ {| sender := s; text := t; time := now |} ]
  end.

(** ** Playback queue *)

(** A clip is the byte content of a Blob. *)
Definition Blob := list Byte.byte.

(** What the browser knows about an [Audio] element created by
    [processQueue]: [Loading] while the promise of [play()] is pending,
    [Aborting] when it was paused before that promise settled (the promise
    is then rejected), [Playing] once it settled, [Paused] when it was
    paused while playing, [Ended] and [Failed] after the ended event and
    after the rejection of [play()]. *)
Inductive AudioStatus := Loading | Aborting | Playing | Paused | Ended | Failed.

(** One [Audio] element together with the object URL created for it;
    [revoked] records [URL.revokeObjectURL] on that URL. *)
Record Audio := { clip : Blob; status : AudioStatus; revoked : bool }.

(** The three refs of the playback queue and the elements created so far, in
    creation order: element [i] plays object URL [i]. *)
Record Playback := {
  audioQueueRef : list Blob;
  isPlayingRef : bool;
  currentAudioRef : option nat;
  audios : list Audio
}.

Definition initialPlayback : Playback :=
  {| audioQueueRef := []; isPlayingRef := false; currentAudioRef := None;
     audios := [] |}.

Definition with_status (s : AudioStatus) (a : Audio) : Audio :=
  {| clip := clip a; status := s; revoked := revoked a |}.

Definition revoke (a : Audio) : Audio :=
  {| clip := clip a; status := status a; revoked := true |}.

(** [audio.pause()] *)
Definition pause (a : Audio) : Audio :=
  match status a with
  | Loading => with_status Aborting a
  | Playing => with_status Paused a
  | _ => a
  end.

(** [processQueue] up to its [await audio.play()]: the element is created
    and [play()] has been called. *)
Definition processQueue (p : Playback) : Playback :=
  if isPlayingRef p || (length (audioQueueRef p) =? 0)%nat then p
  else
    match audioQueueRef p with
    | [] => p
    | blob :: rest =>
        {| audioQueueRef := rest;
           isPlayingRef := true;
           currentAudioRef := Some (length (audios p));
           audios := audios p ++ [ {| clip := blob; status := Loading; revoked := false |} ] |}
    end.

(** [audio.onended] of element [id], whose closure holds object URL [id]. *)
Definition audio_onended (id : nat) (p : Playback) : Playback :=
  processQueue
    {| audioQueueRef := audioQueueRef p;
       isPlayingRef := false;
       currentAudioRef := None;
       audios := alter revoke id (audios p) |}.

(** The [catch] block of [processQueue], run when [play()] is rejected. *)
Definition play_catch (p : Playback) : Playback :=
  processQueue
    {| audioQueueRef := audioQueueRef p;
       isPlayingRef := false;
       currentAudioRef := currentAudioRef p;
       audios := audios p |}.

Definition playAudioResponse (blob : Blob) (p : Playback) : Playback :=
  processQueue
    {| audioQueueRef := audioQueueRef p ++ [blob];
       isPlayingRef := isPlayingRef p;
       currentAudioRef := currentAudioRef p;
       audios := audios p |}.

Definition stopAudioPlayback (p : Playback) : Playback :=
  {| audioQueueRef := [];
     isPlayingRef := false;
     currentAudioRef := None;
     audios := match currentAudioRef p with
               | Some id => alter pause id (audios p)
               | None => audios p
               end |}.

(** What can happen to the playback queue: the two operations of the
    component and the three things the browser reports for an element. *)
Inductive PlaybackEvent :=
| Enqueue (blob : Blob)
| StopAll
| PlayResolved (id : nat)
| PlayRejected (id : nat)
| AudioEnded (id : nat).

Definition status_of (id : nat) (p : Playback) : option AudioStatus :=
  status <$> audios p !! id.

Definition set_status (id : nat) (s : AudioStatus) (p : Playback) : Playback :=
  {| audioQueueRef := audioQueueRef p;
     isPlayingRef := isPlayingRef p;
     currentAudioRef := currentAudioRef p;
     audios := alter (with_status s) id (audios p) |}.

(** The browser settles [play()] only while it is pending, rejects it also
    after a pause that came first, and fires [ended] only for an element
    that is playing; an event that cannot happen leaves the queue as it is. *)
Definition playback_step (e : PlaybackEvent) (p : Playback) : Playback :=
  match e with
  | Enqueue blob => playAudioResponse blob p
  | StopAll => stopAudioPlayback p
  | PlayResolved id =>
      match status_of id p with
      | Some Loading => set_status id Playing p
      | _ => p
      end
  | PlayRejected id =>
      match status_of id p with
      | Some Loading | Some Aborting => play_catch (set_status id Failed p)
      | _ => p
      end
  | AudioEnded id =>
      match status_of id p with
      | Some Playing => audio_onended id (set_status id Ended p)
      | _ => p
      end
  end.

Definition playback_run (es : list PlaybackEvent) (p : Playback) : Playback :=
  fold_left (fun p e => playback_step e p) es p.

(** An element occupies the output while it is loading or playing. *)
Definition active (a : Audio) : bool :=
  match status a with
  | Loading | Playing => true
  | _ => false
  end.

Definition playing_now (p : Playback) : list Audio := filter (fun a => active a = true) (audios p).

Definition is_enqueue (e : PlaybackEvent) : option Blob :=
  match e with Enqueue b => Some b | _ => None end.

Definition enqueued (es : list PlaybackEvent) : list Blob := omap is_enqueue es.

Definition no_stopAll (es : list PlaybackEvent) : Prop := StopAll ∉ es.

(** ** The widget: React state, refs and browser objects *)

(** The React state of the component.  A value of this type is also what the
    closures of one render see ([isRecording], [isConnected], [isHandsFree]
    and [inputText] are constants of the render that created them). *)
Record ReactState := {
  isOpen : bool;
  isRecording : bool;
  isConnected : bool;
  isHandsFree : bool;
  messages : list Message;
  inputText : string
}.

Definition Render := ReactState.

Inductive ReadyState := CONNECTING | OPEN | CLOSING | CLOSED.

(** The frames the component hands to [send]: [JSON.stringify({text})],
    [JSON.stringify({type: "interrupt"})] and the blob of an utterance. *)
Inductive OutFrame :=
| TextFrame (t : string)
| InterruptFrame
| AudioFrame (b : Blob).

(** [websocketRef] holds the socket made by the last [new WebSocket], given
    by its ready state; [wire] lists the frames that were transmitted. *)
Record Conn := {
  websocketRef : option ReadyState;
  wire : list OutFrame
}.

Inductive RecorderState := recording | stopping | inactive.

(** A [MediaRecorder] with the [chunks] array of the [startRecording] call
    that made it and the index of the device stream it records. *)
Record Recorder := {
  recState : RecorderState;
  chunks : list Blob;
  stream : nat
}.

(** [streams] has one entry per device stream handed out by [getUserMedia]:
    [true] while its tracks are live.  [requests] are the calls of
    [startRecording] that wait for [getUserMedia]. *)
Record Capture := {
  mediaRecorderRef : option nat;
  recorders : list Recorder;
  streams : list bool;
  analyserRef : bool;
  canvasRef : bool;
  requests : list Render
}.

(** The callbacks the component gives to [setTimeout]. *)
Inductive Callback :=
| RetrySend (r : Render)
| Restart (r : Render).

(** Animation frames and timers that are waiting, the handle of the last
    requested frame, the silence timer and the clock ([Date.now()]). *)
Record Sched := {
  animationFrameRef : option nat;
  frames : list (nat * Render);
  frameCounter : nat;
  timers : list (Z * Callback);
  silenceStartRef : option Z;
  clock : Z
}.

Inductive Exception := TypeError | InvalidStateError.

(** What the component did to the outside, in order. *)
Inductive Effect :=
| NewWebSocket
| Send (f : OutFrame)
| Uncaught (e : Exception)
| GetUserMedia
| RecorderStop (k : nat)
| StopPlayback.

Record World := {
  react : ReactState;
  conn : Conn;
  cap : Capture;
  play : Playback;
  sched : Sched;
  trace : list Effect
}.

Definition set_react (f : ReactState -> ReactState) (w : World) : World :=
  {| react := f (react w); conn := conn w; cap := cap w; play := play w;
     sched := sched w; trace := trace w |}.

Definition set_conn (f : Conn -> Conn) (w : World) : World :=
  {| react := react w; conn := f (conn w); cap := cap w; play := play w;
     sched := sched w; trace := trace w |}.

Definition set_cap (f : Capture -> Capture) (w : World) : World :=
  {| react := react w; conn := conn w; cap := f (cap w); play := play w;
     sched := sched w; trace := trace w |}.

Definition set_play (f : Playback -> Playback) (w : World) : World :=
  {| react := react w; conn := conn w; cap := cap w; play := f (play w);
     sched := sched w; trace := trace w |}.

Definition set_sched (f : Sched -> Sched) (w : World) : World :=
  {| react := react w; conn := conn w; cap := cap w; play := play w;
     sched := f (sched w); trace := trace w |}.

Definition emit (e : Effect) (w : World) : World :=
  {| react := react w; conn := conn w; cap := cap w; play := play w;
     sched := sched w; trace := trace w ++ [e] |}.

(** *** The setters of the React state *)

Definition setIsRecording (b : bool) : World -> World :=
  set_react (fun s =>
    {| isOpen := isOpen s; isRecording := b; isConnected := isConnected s;
       isHandsFree := isHandsFree s; messages := messages s;
       inputText := inputText s |}).

Definition setIsConnected (b : bool) : World -> World :=
  set_react (fun s =>
    {| isOpen := isOpen s; isRecording := isRecording s; isConnected := b;
       isHandsFree := isHandsFree s; messages := messages s;
       inputText := inputText s |}).

Definition setIsHandsFree (b : bool) : World -> World :=
  set_react (fun s =>
    {| isOpen := isOpen s; isRecording := isRecording s; isConnected := isConnected s;
       isHandsFree := b; messages := messages s;
       inputText := inputText s |}).

Definition setMessages (f : list Message -> list Message) : World -> World :=
  set_react (fun s =>
    {| isOpen := isOpen s; isRecording := isRecording s; isConnected := isConnected s;
       isHandsFree := isHandsFree s; messages := f (messages s);
       inputText := inputText s |}).

Definition setInputText (t : string) : World -> World :=
  set_react (fun s =>
    {| isOpen := isOpen s; isRecording := isRecording s; isConnected := isConnected s;
       isHandsFree := isHandsFree s; messages := messages s;
       inputText := t |}).

Definition setIsOpen (b : bool) : World -> World :=
  set_react (fun s =>
    {| isOpen := b; isRecording := isRecording s; isConnected := isConnected s;
       isHandsFree := isHandsFree s; messages := messages s;
       inputText := inputText s |}).

(** [addMessage(sender, text)] inside the component. *)
Definition add (s : Sender) (t : JsText) (w : World) : World :=
  setMessages (addMessage (clock (sched w)) s t) w.

(** *** Connection manager *)

Definition readyState (w : World) : option ReadyState := websocketRef (conn w).

Definition is_open (w : World) : bool :=
  match readyState w with Some OPEN => true | _ => false end.

Definition connectWebSocket (w : World) : World :=
  match readyState w with
  | Some OPEN | Some CONNECTING => w
  | _ =>
      emit NewWebSocket
        (set_conn (fun c => {| websocketRef := Some CONNECTING; wire := wire c |}) w)
  end.

(** [websocketRef.current.send(f)].  It throws when the ref is null or the
    socket is still connecting, transmits when the socket is open and drops
    the frame when it is closing or closed.  At each of its three call
    sites nothing follows the call, so the exception, which no caller
    catches, is recorded as an effect. *)
Definition send (f : OutFrame) (w : World) : World :=
  match readyState w with
  | None => emit (Uncaught TypeError) w
  | Some CONNECTING => emit (Uncaught InvalidStateError) (emit (Send f) w)
  | Some OPEN =>
      set_conn (fun c => {| websocketRef := websocketRef c; wire := wire c ++ [f] |})
        (emit (Send f) w)
  | Some _ => emit (Send f) w
  end.

(** The browser changes the ready state of the socket in the ref and then
    runs its handler. *)
Definition set_readyState (rs : ReadyState) : World -> World :=
  set_conn (fun c => {| websocketRef := Some rs; wire := wire c |}).

Definition ws_onopen (w : World) : World :=
  add system (str "Connected to Banking Assistant")
    (setIsConnected true (set_readyState OPEN w)).

Definition ws_onclose (w : World) : World :=
  add system (str "Disconnected")
    (setIsRecording false (setIsConnected false (set_readyState CLOSED w))).

(** *** Inbound dispatch *)

(** A JSON value as [ws.onmessage] reads it: the three properties it looks
    at, each a string or missing as in the socket protocol (a number, a
    string, a boolean or an array has none of them). *)
Record Payload := {
  data_audio : JsText;
  data_text : JsText;
  data_type : JsText
}.

(** The outcome of [JSON.parse]. *)
Inductive Parsed :=
| SyntaxError
| JsonNull
| JsonValue (data : Payload).

Inductive EventData :=
| BlobData (b : Blob)
| StringData (raw : string).

Inductive Completion :=
| Normal (w : World)
| Throw (w : World).

(** [t === s] *)
Definition is_string (t : JsText) (s : string) : bool :=
  match t with
  | str s' => String.eqb s' s
  | undefined => false
  end.

(** [Uint8Array.from(bin, c => c.charCodeAt(0))] *)
Definition char_codes (bin : string) : Blob :=
  map byte_of_ascii (list_ascii_of_string bin).

Section Dispatch.

(** The two built-ins the handler calls: [JSON.parse], and [atob], which
    gives [None] where the browser throws. *)
Variable JSON_parse : string -> Parsed.
Variable atob : string -> option string.

(** The [try] block. *)
Definition onmessage_try (raw : string) (w : World) : Completion :=
  match JSON_parse raw with
  | SyntaxError => Throw w
  | JsonNull => Throw w
  | JsonValue data =>
      let after_audio :=
        if truthy (data_audio data) then
          match atob (toString (data_audio data)) with
          | Some bin => Normal (set_play (playAudioResponse (char_codes bin)) w)
          | None => Throw w
          end
        else Normal w in
      match after_audio with
      | Throw w' => Throw w'
      | Normal w' =>
          if truthy (data_text data) && negb (is_string (data_type data) "transcript")
          then Normal (add agent (data_text data) w')
          else if is_string (data_type data) "transcript"
          then Normal (add user (data_text data) w')
          else if is_string (data_type data) "text_response"
          then Normal (add agent (data_text data) w')
          else Normal w'
      end
  end.

Definition ws_onmessage (ev : EventData) (w : World) : Completion :=
  match ev with
  | BlobData b => Normal (set_play (playAudioResponse b) w)
  | StringData raw =>
      match onmessage_try raw w with
      | Normal w' => Normal w'
      | Throw w' => Normal (add agent (str raw) w')
      end
  end.

End Dispatch.

(** *** Scheduling *)

Definition setTimeout (cb : Callback) (delay : Z) : World -> World :=
  set_sched (fun s =>
    {| animationFrameRef := animationFrameRef s; frames := frames s;
       frameCounter := frameCounter s; timers := timers s ++ [(delay, cb)];
       silenceStartRef := silenceStartRef s; clock := clock s |}).

(** [animationFrameRef.current = requestAnimationFrame(draw)] for the
    [draw] of render [r]; handles are positive. *)
Definition requestAnimationFrame (r : Render) : World -> World :=
  set_sched (fun s =>
    {| animationFrameRef := Some (S (frameCounter s));
       frames := frames s ++ [(S (frameCounter s), r)];
       frameCounter := S (frameCounter s); timers := timers s;
       silenceStartRef := silenceStartRef s; clock := clock s |}).

Definition cancelAnimationFrame (id : nat) : World -> World :=
  set_sched (fun s =>
    {| animationFrameRef := animationFrameRef s;
       frames := filter (fun f => fst f <> id) (frames s);
       frameCounter := frameCounter s; timers := timers s;
       silenceStartRef := silenceStartRef s; clock := clock s |}).

Definition set_silenceStart (v : option Z) : World -> World :=
  set_sched (fun s =>
    {| animationFrameRef := animationFrameRef s; frames := frames s;
       frameCounter := frameCounter s; timers := timers s;
       silenceStartRef := v; clock := clock s |}).

Definition set_clock (now : Z) : World -> World :=
  set_sched (fun s =>
    {| animationFrameRef := animationFrameRef s; frames := frames s;
       frameCounter := frameCounter s; timers := timers s;
       silenceStartRef := silenceStartRef s; clock := now |}).

Definition remove_timer (i : nat) : World -> World :=
  set_sched (fun s =>
    {| animationFrameRef := animationFrameRef s; frames := frames s;
       frameCounter := frameCounter s; timers := delete i (timers s);
       silenceStartRef := silenceStartRef s; clock := clock s |}).

(** *** Capture pipeline *)

Definition set_recorders (f : list Recorder -> list Recorder) : World -> World :=
  set_cap (fun c =>
    {| mediaRecorderRef := mediaRecorderRef c; recorders := f (recorders c);
       streams := streams c; analyserRef := analyserRef c;
       canvasRef := canvasRef c; requests := requests c |}).

Definition set_streams (f : list bool -> list bool) : World -> World :=
  set_cap (fun c =>
    {| mediaRecorderRef := mediaRecorderRef c; recorders := recorders c;
       streams := f (streams c); analyserRef := analyserRef c;
       canvasRef := canvasRef c; requests := requests c |}).

Definition set_requests (f : list Render -> list Render) : World -> World :=
  set_cap (fun c =>
    {| mediaRecorderRef := mediaRecorderRef c; recorders := recorders c;
       streams := streams c; analyserRef := analyserRef c;
       canvasRef := canvasRef c; requests := f (requests c) |}).

(** [mediaRecorder.stop()]: a recorder that is recording starts to stop (its
    last data and its stop event follow); on any other it does nothing. *)
Definition begin_stop (rec : Recorder) : Recorder :=
  match recState rec with
  | recording => {| recState := stopping; chunks := chunks rec; stream := stream rec |}
  | _ => rec
  end.

Definition recorder_stop (k : nat) (w : World) : World :=
  emit (RecorderStop k) (set_recorders (alter begin_stop k) w).

(** [mediaRecorder.stream.getTracks().forEach(track => track.stop())] *)
Definition stop_tracks (k : nat) (w : World) : World :=
  match recorders (cap w) !! k with
  | Some rec => set_streams (alter (fun _ => false) (stream rec)) w
  | None => w
  end.

(** [if (animationFrameRef.current) cancelAnimationFrame(animationFrameRef.current)] *)
Definition cancelFrame (w : World) : World :=
  match animationFrameRef (sched w) with
  | Some (S id) => cancelAnimationFrame (S id) w
  | _ => w
  end.

Definition stopRecording (r : Render) (w : World) : World :=
  match mediaRecorderRef (cap w) with
  | Some k =>
      if isRecording r then
        cancelFrame (setIsRecording false (stop_tracks k (recorder_stop k w)))
      else w
  | None => w
  end.

(** [mediaRecorder.ondataavailable] of recorder [k] *)
Definition mediaRecorder_ondataavailable (k : nat) (data : Blob) (w : World) : World :=
  if (0 <? length data)%nat then
    set_recorders
      (alter (fun rec => {| recState := recState rec; chunks := chunks rec ++ [data];
                            stream := stream rec |}) k) w
  else w.

Definition clear_chunks (rec : Recorder) : Recorder :=
  {| recState := recState rec; chunks := []; stream := stream rec |}.

(** [mediaRecorder.onstop] of recorder [k]; [new Blob(chunks)] is the
    concatenation of the chunks. *)
Definition mediaRecorder_onstop (k : nat) (w : World) : World :=
  match recorders (cap w) !! k with
  | Some rec =>
      if is_open w && (0 <? length (chunks rec))%nat then
        set_recorders (alter clear_chunks k)
          (send (AudioFrame (concat (chunks rec))) w)
      else w
  | None => w
  end.

(** The browser delivers data of a recorder that is not inactive, and ends a
    recorder that is stopping by firing its stop event. *)
Definition dataAvailable (k : nat) (data : Blob) (w : World) : World :=
  match recState <$> recorders (cap w) !! k with
  | Some recording | Some stopping => mediaRecorder_ondataavailable k data w
  | _ => w
  end.

Definition end_stop (rec : Recorder) : Recorder :=
  {| recState := inactive; chunks := chunks rec; stream := stream rec |}.

Definition recorderStopped (k : nat) (w : World) : World :=
  match recState <$> recorders (cap w) !! k with
  | Some stopping => mediaRecorder_onstop k (set_recorders (alter end_stop k) w)
  | _ => w
  end.

(** *** Turn controller *)

(** [analyser.fftSize = 256], so [frequencyBinCount] is 128. *)
Definition bufferLength : nat := 128.

(** The loop [for (i = 0; i < bufferLength; i++) sum += dataArray[i]]; the
    array was created with [bufferLength] zero bytes. *)
Definition sum (dataArray : list Z) : Z :=
  fold_left (fun acc i => acc + nth i dataArray 0) (seq 0 bufferLength) 0.

(** [sum / bufferLength]: the quotient of an integer below 2^53 by a power
    of two is exact in floating point. *)
Definition average (dataArray : list Z) : Q :=
  (inject_Z (sum dataArray) / inject_Z (Z.of_nat bufferLength))%Q.

(** [average > 25] *)
Definition speech (dataArray : list Z) : bool :=
  negb (Qle_bool (average dataArray) (inject_Z 25)).

Definition stopPlayback (w : World) : World :=
  set_play stopAudioPlayback (emit StopPlayback w).

(** [audioQueueRef.current.length > 0 || isPlayingRef.current] *)
Definition playback_busy (w : World) : bool :=
  (0 <? length (audioQueueRef (play w)))%nat || isPlayingRef (play w).

(** One run of [draw], the callback of the render [r] whose
    [drawVisualizer] made it; the drawing on the canvas changes nothing
    that is modelled. *)
Definition draw (r : Render) (dataArray : list Z) (w : World) : World :=
  let w := requestAnimationFrame r w in
  if isHandsFree r && isRecording r then
    if speech dataArray then
      let w := set_silenceStart None w in
      if playback_busy w then send InterruptFrame (stopPlayback w) else w
    else
      match silenceStartRef (sched w) with
      | None | Some 0 => set_silenceStart (Some (clock (sched w))) w
      | Some t0 =>
          if 600 <? clock (sched w) - t0 then
            setTimeout (Restart r) 100 (set_silenceStart None (stopRecording r w))
          else w
      end
  else w.

Definition drawVisualizer (r : Render) (dataArray : list Z) (w : World) : World :=
  if analyserRef (cap w) && canvasRef (cap w) then draw r dataArray w else w.

(** [startRecording] up to [await getUserMedia(...)]. *)
Definition startRecording (r : Render) (w : World) : World :=
  let w := if negb (isConnected r) then connectWebSocket w else w in
  set_requests (fun q => q ++ [r]) (emit GetUserMedia w).

(** The rest of [startRecording] once the stream is there; [dataArray] is
    what the analyser gives to the first, immediate run of [draw]. *)
Definition startRecording_resume (r : Render) (dataArray : list Z) (w : World) : World :=
  let sid := length (streams (cap w)) in
  let w := set_cap (fun c =>
    {| mediaRecorderRef := mediaRecorderRef c; recorders := recorders c;
       streams := streams c ++ [true]; analyserRef := true;
       canvasRef := canvasRef c; requests := requests c |}) w in
  let w := drawVisualizer r dataArray w in
  let w := set_cap (fun c =>
    {| mediaRecorderRef := Some (length (recorders c));
       recorders := recorders c ++ [ {| recState := recording; chunks := []; stream := sid |} ];
       streams := streams c; analyserRef := analyserRef c;
       canvasRef := canvasRef c; requests := requests c |}) w in
  add system
    (str (if isHandsFree r then "Hands-free mode active. Listening..." else "Listening..."))
    (setIsRecording true w).

(** The [catch] block of [startRecording]. *)
Definition startRecording_catch (w : World) : World :=
  add system (str "Error accessing microphone") w.

(** [getUserMedia] settles the waiting request [i]. *)
Definition mediaGranted (i : nat) (dataArray : list Z) (w : World) : World :=
  match requests (cap w) !! i with
  | Some r => startRecording_resume r dataArray (set_requests (delete i) w)
  | None => w
  end.

Definition mediaDenied (i : nat) (w : World) : World :=
  match requests (cap w) !! i with
  | Some r => startRecording_catch (set_requests (delete i) w)
  | None => w
  end.

Definition toggleRecording (r : Render) (w : World) : World :=
  if isRecording r then stopRecording r w else startRecording r w.

(** *** Text send *)

(** White space and line terminators among the code units below 256: tab,
    line feed, vertical tab, form feed, carriage return, space and
    no-break space. *)
Definition isWhiteSpace (c : ascii) : bool :=
  existsb (Nat.eqb (nat_of_ascii c)) [9; 10; 11; 12; 13; 32; 160]%nat.

Fixpoint trimStart (s : string) : string :=
  match s with
  | EmptyString => EmptyString
  | String c s' => if isWhiteSpace c then trimStart s' else s
  end.

Fixpoint trimEnd (s : string) : string :=
  match s with
  | EmptyString => EmptyString
  | String c s' =>
      match trimEnd s' with
      | EmptyString => if isWhiteSpace c then EmptyString else String c EmptyString
      | t => String c t
      end
  end.

(** [s.trim()] *)
Definition trim (s : string) : string := trimEnd (trimStart s).

Definition handleSendMessage (r : Render) (w : World) : World :=
  match trim (inputText r) with
  | EmptyString => w
  | _ =>
      let w := if negb (isConnected r) then connectWebSocket w else w in
      if negb (is_open w) then setTimeout (RetrySend r) 500 w
      else
        setInputText EmptyString
          (add user (str (inputText r))
             (send (TextFrame (inputText r)) w))
  end.

(** *** Events of the browser *)

Definition fireTimer (i : nat) (w : World) : World :=
  match timers (sched w) !! i with
  | Some (_, RetrySend r) => handleSendMessage r (remove_timer i w)
  | Some (_, Restart r) => startRecording r (remove_timer i w)
  | None => w
  end.

(** One analyser reading, taken at time [now]. *)
Record Sample := { now : Z; dataArray : list Z }.

Definition pending (id : nat) (w : World) : bool :=
  existsb (fun f => Nat.eqb (fst f) id) (frames (sched w)).

(** The browser runs a callback that is still waiting and forgets it. *)
Definition run_frame (s : Sample) (w : World) (f : nat * Render) : World :=
  if pending (fst f) w
  then draw (snd f) (dataArray s) (cancelAnimationFrame (fst f) w)
  else w.

(** One animation frame: the callbacks that wait when it begins run in
    order, unless an earlier one cancelled them. *)
Definition animationFrame (s : Sample) (w : World) : World :=
  let w := set_clock (now s) w in
  fold_left (run_frame s) (frames (sched w)) w.

Definition sampling (ss : list Sample) (w : World) : World :=
  fold_left (fun w s => animationFrame s w) ss w.

(** [toggleChat]; the canvas is part of the panel, so that React fills
    [canvasRef] when the panel is shown and clears it when it is not. *)
Definition toggleChat (r : Render) (w : World) : World :=
  let w := setIsOpen (negb (isOpen r)) w in
  let w := set_cap (fun c =>
    {| mediaRecorderRef := mediaRecorderRef c; recorders := recorders c;
       streams := streams c; analyserRef := analyserRef c;
       canvasRef := negb (isOpen r); requests := requests c |}) w in
  if negb (isOpen r) && negb (isConnected r) then connectWebSocket w else w.

(** The handlers of the buttons belong to the render on screen. *)
Definition clickSend (w : World) : World := handleSendMessage (react w) w.
Definition clickMic (w : World) : World := toggleRecording (react w) w.
Definition clickChat (w : World) : World := toggleChat (react w) w.
Definition clickHandsFree (w : World) : World := setIsHandsFree (negb (isHandsFree (react w))) w.

(** The widget when it is mounted at time [now]: the initial values of
    [useState] and [useRef]; the canvas is not there while the chat panel is
    closed. *)
Definition mount (now : Z) : World :=
  {| react := {| isOpen := false; isRecording := false; isConnected := false;
                 isHandsFree := false; messages := []; inputText := EmptyString |};
     conn := {| websocketRef := None; wire := [] |};
     cap := {| mediaRecorderRef := None; recorders := []; streams := [];
               analyserRef := false; canvasRef := false; requests := [] |};
     play := initialPlayback;
     sched := {| animationFrameRef := None; frames := []; frameCounter := 0;
                 timers := []; silenceStartRef := None; clock := now |};
     trace := [] |}.

(** The world after the audio of a parsed frame has been handled: [None]
    where [atob] throws. *)
Definition audio_handled (atob : string -> option string) (data : Payload) (w : World)
  : option World :=
  if truthy (data_audio data) then
    match atob (toString (data_audio data)) with
    | Some bin => Some (set_play (playAudioResponse (char_codes bin)) w)
    | None => None
    end
  else Some w.

(** ** The widget as a whole *)

(** What the user and the browser can do to the widget. *)
Inductive Event :=
| ClickFab
| ClickClose
| ClickHandsFree
| ClickMic
| ClickSend
| PressEnter
| Typing (t : string)
| SocketOpen
| SocketClose
| SocketMessage (data : EventData)
| MediaGranted (i : nat) (dataArray : list Z)
| MediaDenied (i : nat)
| TimerFires (i : nat)
| AnimationFrame (s : Sample)
| AudioEvent (e : PlaybackEvent)
| DataAvailable (k : nat) (data : Blob)
| RecorderStopped (k : nat).

(** The close button of the panel: [setIsOpen(false)]. *)
Definition clickClose (w : World) : World :=
  set_cap (fun c =>
    {| mediaRecorderRef := mediaRecorderRef c; recorders := recorders c;
       streams := streams c; analyserRef := analyserRef c;
       canvasRef := false; requests := requests c |}) (setIsOpen false w).

(** The browser reports only what it does itself for an [Audio] element. *)
Definition browser_event (e : PlaybackEvent) : bool :=
  match e with
  | PlayResolved _ | PlayRejected _ | AudioEnded _ => true
  | Enqueue _ | StopAll => false
  end.

(** The text input is part of the panel and is disabled while recording
    outside hands-free mode. *)
Definition input_enabled (w : World) : bool :=
  isOpen (react w) && negb (isRecording (react w) && negb (isHandsFree (react w))).

Section Widget.

Variable JSON_parse : string -> Parsed.
Variable atob : string -> option string.

(** One event.  The floating button is on screen while the panel is closed,
    the other controls while it is open; Enter in the text input is
    [handleKeyPress]; a socket opens while it is connecting, closes once,
    and delivers messages while it is open. *)
Definition step (e : Event) (w : World) : World :=
  match e with
  | ClickFab => if isOpen (react w) then w else clickChat w
  | ClickClose => if isOpen (react w) then clickClose w else w
  | ClickHandsFree => if isOpen (react w) then clickHandsFree w else w
  | ClickMic => if isOpen (react w) then clickMic w else w
  | ClickSend => if isOpen (react w) then clickSend w else w
  | PressEnter => if input_enabled w then clickSend w else w
  | Typing t => if input_enabled w then setInputText t w else w
  | SocketOpen =>
      match readyState w with
      | Some CONNECTING => ws_onopen w
      | _ => w
      end
  | SocketClose =>
      match readyState w with
      | Some CLOSED | None => w
      | Some _ => ws_onclose w
      end
  | SocketMessage data =>
      match readyState w with
      | Some OPEN =>
          match ws_onmessage JSON_parse atob data w with
          | Normal w' => w'
          | Throw w' => emit (Uncaught TypeError) w'
          end
      | _ => w
      end
  | MediaGranted i dataArray => mediaGranted i dataArray w
  | MediaDenied i => mediaDenied i w
  | TimerFires i => fireTimer i w
  | AnimationFrame s => animationFrame s w
  | AudioEvent e => if browser_event e then set_play (playback_step e) w else w
  | DataAvailable k data => dataAvailable k data w
  | RecorderStopped k => recorderStopped k w
  end.

Definition run (es : list Event) (w : World) : World :=
  fold_left (fun w e => step e w) es w.

End Widget.

(** Every callback that waits for an animation frame, every call of
    [startRecording] that waits for its stream and every restart that waits
    for its timer was made by a render that was not recording. *)
Definition made_while_idle (w : World) : Prop :=
  Forall (fun f => isRecording (snd f) = false) (frames (sched w))
  /\ Forall (fun r => isRecording r = false) (requests (cap w))
  /\ Forall (fun t => match snd t with
                      | Restart r => isRecording r = false
                      | RetrySend _ => True
                      end) (timers (sched w)).

(** Two worlds that differ at most in the animation frames that wait, the
    handle of the last one, and the clock. *)
Definition same_but_frames (w w' : World) : Prop :=
  trace w' = trace w /\ play w' = play w /\ conn w' = conn w
  /\ react w' = react w /\ cap w' = cap w
  /\ timers (sched w') = timers (sched w)
  /\ silenceStartRef (sched w') = silenceStartRef (sched w).

(** A session in hands-free mode: the panel is opened, hands-free mode is
    switched on, the microphone button is pressed and the stream granted,
    the socket opens. *)
Definition hands_free_session : list Event :=
  [ClickFab; ClickHandsFree; ClickMic; MediaGranted 0 []; SocketOpen].

(** An analyser reading with every bin at 200, and one with every bin at 0. *)
Definition loud : list Z := repeat 200 bufferLength.
Definition quiet : list Z := repeat 0 bufferLength.

Definition no_parse : string -> Parsed := fun _ => SyntaxError.
Definition no_atob : string -> option string := fun _ => None.

(** ** Notions used in the statements *)

Definition finished (a : Audio) : Prop := status a = Ended \/ status a = Failed.

(** The shape of the queue as long as nothing interrupts it: either nothing
    plays and every element has finished, or the flag is up and the last
    element is the only one that has not. *)
Definition serial (p : Playback) : Prop :=
  (isPlayingRef p = false /\ audioQueueRef p = [] /\ Forall finished (audios p))
  \/ (isPlayingRef p = true /\
      exists init a, audios p = init ++ [a]
                     /\ (status a = Loading \/ status a = Playing)
                     /\ Forall finished init).

(** The element [new Audio(audioUrl)] for a clip, once [play()] has been
    called on it. *)
Definition started (blob : Blob) : Audio :=
  {| clip := blob; status := Loading; revoked := false |}.

Definition order (p : Playback) : list Blob := map clip (audios p) ++ audioQueueRef p.

(** An element that was interrupted or whose [play()] failed, with its
    object URL still alive. *)
Definition stranded (a : Audio) : Prop :=
  revoked a = false /\ (status a = Paused \/ status a = Aborting \/ status a = Failed).

Definition stranded_at (id : nat) (p : Playback) : Prop :=
  exists a, audios p !! id = Some a /\ stranded a.

(** A string of white space only (or of nothing). *)
Definition blank (s : string) : Prop := Forall (fun c => isWhiteSpace c = true) (list_ascii_of_string s).

(** The world in which the send looks at the socket. *)
Definition connected_first (r : Render) (w : World) : World :=
  if negb (isConnected r) then connectWebSocket w else w.

(** The world [stopRecording] leaves when it does stop recorder [k]. *)
Definition stopped_world (k : nat) (rec : Recorder) (w : World) : World :=
  cancelFrame
    (setIsRecording false
       (set_streams (alter (fun _ => false) (stream rec)) (recorder_stop k w))).

(** Recorder [k] records the device stream [sid], whose tracks are live. *)
Definition capturing (k sid : nat) (w : World) : Prop :=
  exists rec, recorders (cap w) !! k = Some rec /\ recState rec = recording
              /\ stream rec = sid /\ streams (cap w) !! sid = Some true.

Definition streams_count (w : World) : nat := length (streams (cap w)).

(** The loop of render [r] is the only one that waits for a frame. *)
Definition looping (r : Render) (w : World) : Prop :=
  exists id, frames (sched w) = [(id, r)].

(** * Properties *)

(** ** Transcript *)

Lemma Sender_eqb_eq a b : Sender_eqb a b = true <-> a = b.
Proof. destruct a, b; simpl; split; intros H; congruence. Qed.

Lemma Sender_eqb_refl a : Sender_eqb a a = true.
Proof. now apply Sender_eqb_eq. Qed.

Lemma Sender_eqb_neq a b : a <> b -> Sender_eqb a b = false.
Proof.
  intros H. destruct (Sender_eqb a b) eqn:E; [|reflexivity].
  apply Sender_eqb_eq in E. contradiction.
Qed.

Lemma snoc_replace_last {A} (init : list A) (x y : A) :
  <[ (length (init ++ [x]) - 1)%nat := y ]> (init ++ [x]) = init ++ [y].
Proof.
  rewrite length_app. simpl.
  replace (length init + 1 - 1)%nat with (length init + 0)%nat by lia.
  rewrite insert_app_r. reflexivity.
Qed.

Lemma addMessage_merge now s t init lastMsg :
  sender lastMsg = s -> s <> system ->
  addMessage now s t (init ++ [lastMsg]) = init ++ [merged lastMsg t].
Proof.
  intros Hs Hsys. unfold addMessage. rewrite last_snoc.
  rewrite Hs, Sender_eqb_refl, (Sender_eqb_neq s system Hsys). simpl.
  apply snoc_replace_last.
Qed.

Lemma addMessage_append now s t prev :
  (forall lastMsg, last prev = Some lastMsg -> sender lastMsg <> s \/ s = system) ->
  addMessage now s t prev = prev ++ [ {| sender := s; text := t; time := now |} ].
Proof.
  intros H. unfold addMessage. destruct (last prev) as [m|] eqn:E; [|reflexivity].
  destruct (H m eq_refl) as [Hne | ->].
  - now rewrite (Sender_eqb_neq _ _ Hne).
  - simpl. now rewrite andb_false_r.
Qed.

Lemma addMessage_system now t prev :
  addMessage now system t prev = prev ++ [ {| sender := system; text := t; time := now |} ].
Proof. apply addMessage_append. intros; now right. Qed.

Lemma addMessage_cases now s t prev :
  addMessage now s t prev = prev ++ [ {| sender := s; text := t; time := now |} ]
  \/ exists init lastMsg,
       prev = init ++ [lastMsg] /\ sender lastMsg = s /\ s <> system
       /\ addMessage now s t prev = init ++ [merged lastMsg t].
Proof.
  destruct prev as [|m0 prev0] using rev_ind; [now left|].
  destruct (Sender_eqb (sender m0) s) eqn:E1.
  - apply Sender_eqb_eq in E1.
    destruct (Sender_eqb s system) eqn:E2.
    + apply Sender_eqb_eq in E2. left. apply addMessage_append. intros; now right.
    + right. exists prev0, m0. repeat split; [assumption | | ].
      * intros ->. discriminate.
      * apply addMessage_merge; [assumption|]. intros ->. discriminate.
  - left. apply addMessage_append. intros m. rewrite last_snoc. intros [= <-].
    left. intros Heq. rewrite Heq, Sender_eqb_refl in E1. discriminate.
Qed.

(** C7. The transcript only grows at its end, except that a message of the
    sender of the last entry, when that sender is not system, replaces the
    last entry by one whose text is the old text, one space and the new
    text; a system message between two messages of one sender keeps them
    apart; no append touches an entry other than the last. *)
Theorem transcript_append_or_merge (now : Z) (s : Sender) (t : JsText) (prev : list Message) :
  (forall init lastMsg,
      prev = init ++ [lastMsg] -> sender lastMsg = s -> s <> system ->
      addMessage now s t prev =
      init ++ [ {| sender := s;
                   text := str (toString (text lastMsg) ++ " " ++ toString t)%string;
                   time := time lastMsg |} ])
  /\ ((forall lastMsg, last prev = Some lastMsg -> sender lastMsg <> s \/ s = system) ->
      addMessage now s t prev = prev ++ [ {| sender := s; text := t; time := now |} ])
  /\ (forall i, (S i < length prev)%nat -> addMessage now s t prev !! i = prev !! i)
  /\ (length prev <= length (addMessage now s t prev))%nat
  /\ (forall now2 now3 t2 t3,
      addMessage now3 s t3 (addMessage now2 system t2 (addMessage now s t prev)) =
      addMessage now s t prev
        ++ [ {| sender := system; text := t2; time := now2 |};
             {| sender := s; text := t3; time := now3 |} ]).
Proof.
  split; [|split; [|split; [|split]]].
  - intros init lastMsg -> Hs Hsys.
    rewrite (addMessage_merge now s t init lastMsg Hs Hsys).
    unfold merged. now rewrite Hs.
  - apply addMessage_append.
  - intros i Hi. destruct (addMessage_cases now s t prev) as [-> | (init & m & -> & _ & _ & ->)].
    + apply lookup_app_l. lia.
    + rewrite length_app in Hi. simpl in Hi.
      rewrite !lookup_app_l by lia. reflexivity.
  - destruct (addMessage_cases now s t prev) as [-> | (init & m & -> & _ & _ & ->)];
      rewrite !length_app; simpl; lia.
  - intros now2 now3 t2 t3. rewrite addMessage_system.
    rewrite addMessage_append.
    + now rewrite <- app_assoc.
    + intros m. rewrite last_snoc. intros [= <-]. simpl.
      destruct s; [left | left | right]; congruence.
Qed.

Lemma transcript_append_or_merge_witness :
  addMessage 7 agent (str "there")
    ([] ++ [ {| sender := agent; text := str "hello"; time := 3 |} ])
  = [ {| sender := agent; text := str "hello there"; time := 3 |} ].
Proof.
  exact (proj1 (transcript_append_or_merge 7 agent (str "there")
                  ([] ++ [ {| sender := agent; text := str "hello"; time := 3 |} ]))
           [] {| sender := agent; text := str "hello"; time := 3 |}
           eq_refl eq_refl ltac:(discriminate)).
Defined.

(** ** Playback queue *)

Lemma processQueue_idle p :
  isPlayingRef p = true \/ audioQueueRef p = [] -> processQueue p = p.
Proof.
  unfold processQueue. intros [-> | ->]; [reflexivity|].
  simpl. now rewrite orb_true_r.
Qed.

Lemma processQueue_start p blob rest :
  isPlayingRef p = false -> audioQueueRef p = blob :: rest ->
  processQueue p =
  {| audioQueueRef := rest; isPlayingRef := true;
     currentAudioRef := Some (length (audios p));
     audios := audios p ++ [ {| clip := blob; status := Loading; revoked := false |} ] |}.
Proof. unfold processQueue. now intros -> ->. Qed.

Lemma finished_not_status a s :
  finished a -> s = Loading \/ s = Playing \/ s = Aborting -> status a <> s.
Proof. unfold finished. intros [-> | ->] [-> | [-> | ->]]; discriminate. Qed.

Lemma lookup_unfinished (l : list Audio) (a x : Audio) (id : nat) :
  Forall finished l -> (l ++ [a]) !! id = Some x -> ~ finished x ->
  id = length l /\ x = a.
Proof.
  intros Hall Hl Hx. destruct (decide (id < length l)%nat) as [Hlt | Hge].
  - rewrite lookup_app_l in Hl by assumption.
    exfalso. apply Hx. rewrite Forall_forall in Hall. apply Hall.
    apply list_elem_of_lookup. eauto.
  - apply lookup_app_Some in Hl as [Hl | [_ Hl]].
    + apply lookup_lt_Some in Hl. lia.
    + apply list_lookup_singleton_Some in Hl as [Hz ->]. split; [lia | reflexivity].
Qed.

Lemma alter_last {A} (f : A -> A) (l : list A) (a : A) :
  alter f (length l) (l ++ [a]) = l ++ [f a].
Proof.
  replace (length l) with (length l + 0)%nat by lia.
  now rewrite alter_app_r.
Qed.

Lemma map_clip_alter f id (l : list Audio) :
  (forall a, clip (f a) = clip a) -> map clip (alter f id l) = map clip l.
Proof.
  intros Hf. revert id. induction l as [|a l IH]; intros [|id]; simpl; try reflexivity.
  - now rewrite Hf.
  - f_equal. apply IH.
Qed.

Lemma status_of_Some id p s :
  status_of id p = Some s -> exists a, audios p !! id = Some a /\ status a = s.
Proof.
  unfold status_of. destruct (audios p !! id) as [a|]; simpl; intros [= <-]. eauto.
Qed.

Lemma serial_unfinished p id a :
  serial p -> audios p !! id = Some a -> ~ finished a ->
  isPlayingRef p = true /\
  exists init, audios p = init ++ [a] /\ id = length init /\ Forall finished init.
Proof.
  intros [(_ & _ & Hall) | (Hp & init & a0 & Heq & Hst & Hall)] Hl Hn.
  - exfalso. apply Hn. rewrite Forall_forall in Hall. apply Hall.
    apply list_elem_of_lookup. eauto.
  - rewrite Heq in Hl. destruct (lookup_unfinished _ _ _ _ Hall Hl Hn) as [-> ->].
    split; [assumption|]. exists init. auto.
Qed.

Lemma serial_after_callback queue cur init a :
  Forall finished init -> finished a ->
  serial (processQueue {| audioQueueRef := queue; isPlayingRef := false;
                          currentAudioRef := cur; audios := init ++ [a] |}).
Proof.
  intros Hall Ha.
  assert (Hfin : Forall finished (init ++ [a])).
  { apply Forall_app. split; [assumption | constructor; [assumption | constructor]]. }
  destruct queue as [|blob rest].
  - rewrite processQueue_idle by now right. left. auto.
  - erewrite processQueue_start by reflexivity. right. simpl. split; [reflexivity|].
    eexists _, _. split; [reflexivity|]. split; [now left | assumption].
Qed.

Lemma serial_step e p : e <> StopAll -> serial p -> serial (playback_step e p).
Proof.
  intros He Hs. destruct e as [blob | | id | id | id]; [ | congruence | | | ]; simpl.
  - unfold playAudioResponse.
    destruct Hs as [(Hp & Hq & Hall) | (Hp & Hrest)].
    + erewrite processQueue_start; [| exact Hp | simpl; rewrite Hq; reflexivity].
      right. simpl. split; [reflexivity|].
      eexists _, _. split; [reflexivity|]. split; [now left | assumption].
    + rewrite processQueue_idle by (now left). right. auto.
  - destruct (status_of id p) as [[]|] eqn:E; try assumption.
    apply status_of_Some in E as (a & Hl & Ha).
    destruct (serial_unfinished p id a Hs Hl) as (Hp & init & Heq & -> & Hall).
    { intros [H | H]; congruence. }
    right. split; [assumption|]. simpl. rewrite Heq, alter_last.
    eexists _, _. split; [reflexivity|]. split; [now right | assumption].
  - destruct (status_of id p) as [[]|] eqn:E; try assumption.
    + apply status_of_Some in E as (a & Hl & Ha).
      destruct (serial_unfinished p id a Hs Hl) as (Hp & init & Heq & -> & Hall).
      { intros [H | H]; congruence. }
      unfold play_catch, set_status. simpl. rewrite Heq, alter_last.
      apply serial_after_callback; [assumption | now right].
    + apply status_of_Some in E as (a & Hl & Ha).
      destruct (serial_unfinished p id a Hs Hl) as (Hp & init & Heq & -> & Hall).
      { intros [H | H]; congruence. }
      destruct Hs as [(Hp' & _) | (_ & init' & a' & Heq' & Hst & _)]; [congruence|].
      rewrite Heq in Heq'. apply app_inj_tail in Heq' as [_ <-].
      destruct Hst; congruence.
  - destruct (status_of id p) as [[]|] eqn:E; try assumption.
    apply status_of_Some in E as (a & Hl & Ha).
    destruct (serial_unfinished p id a Hs Hl) as (Hp & init & Heq & -> & Hall).
    { intros [H | H]; congruence. }
    unfold audio_onended, set_status. simpl. rewrite Heq, !alter_last.
    apply serial_after_callback; [assumption | now left].
Qed.

Lemma processQueue_order p : order (processQueue p) = order p.
Proof.
  destruct (isPlayingRef p) eqn:Hp; [now rewrite processQueue_idle by (now left)|].
  destruct (audioQueueRef p) as [|blob rest] eqn:Hq;
    [now rewrite processQueue_idle by (now right)|].
  rewrite (processQueue_start p blob rest Hp Hq). unfold order. simpl.
  rewrite Hq, map_app. simpl. now rewrite <- app_assoc.
Qed.

Lemma order_step e p :
  e <> StopAll ->
  order (playback_step e p) = order p ++ match is_enqueue e with Some b => [b] | None => [] end.
Proof.
  intros He. destruct e as [blob | | id | id | id]; [ | congruence | | | ]; simpl.
  - unfold playAudioResponse. rewrite processQueue_order. unfold order. simpl.
    now rewrite app_assoc.
  - rewrite app_nil_r. destruct (status_of id p) as [[]|]; try reflexivity.
    unfold order, set_status. simpl. now rewrite map_clip_alter.
  - rewrite app_nil_r.
    destruct (status_of id p) as [[]|]; try reflexivity;
      unfold play_catch; rewrite processQueue_order;
      unfold order, set_status; simpl; now rewrite map_clip_alter.
  - rewrite app_nil_r. destruct (status_of id p) as [[]|]; try reflexivity.
    unfold audio_onended. rewrite processQueue_order.
    unfold order, set_status. simpl. now rewrite !map_clip_alter.
Qed.

Lemma playback_run_snoc es e p :
  playback_run (es ++ [e]) p = playback_step e (playback_run es p).
Proof. unfold playback_run. now rewrite fold_left_app. Qed.

Lemma enqueued_snoc es e :
  enqueued (es ++ [e]) = enqueued es ++ match is_enqueue e with Some b => [b] | None => [] end.
Proof.
  unfold enqueued. rewrite omap_app. simpl. now destruct (is_enqueue e).
Qed.

Lemma serial_run es :
  no_stopAll es ->
  serial (playback_run es initialPlayback)
  /\ order (playback_run es initialPlayback) = enqueued es.
Proof.
  unfold no_stopAll.
  induction es as [|e es IH] using rev_ind; intros Hno.
  - split; [|reflexivity]. left. simpl. auto.
  - rewrite not_elem_of_app in Hno. destruct Hno as [Hes He].
    assert (e <> StopAll) as Hne. { intros ->. apply He. left. }
    destruct (IH Hes) as [Hs Ho]. rewrite playback_run_snoc. split.
    + now apply serial_step.
    + rewrite order_step by assumption. rewrite Ho. symmetry. apply enqueued_snoc.
Qed.

Lemma finished_inactive a : finished a -> active a = false.
Proof. unfold finished, active. now intros [-> | ->]. Qed.

Lemma playing_now_finished l :
  Forall finished l -> filter (fun a => active a = true) l = [].
Proof.
  induction 1 as [|a l Ha _ IH]; [reflexivity|].
  rewrite filter_cons_False; [assumption|].
  rewrite (finished_inactive a Ha). discriminate.
Qed.

Lemma serial_playing_now p :
  serial p ->
  (isPlayingRef p = false /\ playing_now p = [])
  \/ (isPlayingRef p = true /\ exists a, playing_now p = [a] /\ last (audios p) = Some a).
Proof.
  unfold playing_now.
  intros [(Hp & _ & Hall) | (Hp & init & a & Heq & Hst & Hall)].
  - left. split; [assumption|]. now apply playing_now_finished.
  - right. split; [assumption|]. exists a. rewrite Heq, filter_app, last_snoc.
    rewrite (playing_now_finished init Hall). split; [|reflexivity].
    rewrite filter_cons_True; [reflexivity|].
    unfold active. now destruct Hst as [-> | ->].
Qed.

Lemma serial_current p id a :
  serial p -> audios p !! id = Some a -> status a = Loading \/ status a = Playing ->
  isPlayingRef p = true /\ playing_now p = [a]
  /\ exists init, audios p = init ++ [a] /\ id = length init /\ Forall finished init.
Proof.
  intros Hs Hl Hst.
  destruct (serial_unfinished p id a Hs Hl) as (Hp & init & Heq & -> & Hall).
  { intros [H | H]; destruct Hst; congruence. }
  split; [assumption|]. split; [|eauto].
  unfold playing_now. rewrite Heq, filter_app, (playing_now_finished init Hall).
  rewrite filter_cons_True; [reflexivity|].
  unfold active. now destruct Hst as [-> | ->].
Qed.

Lemma serial_no_aborting p id a :
  serial p -> audios p !! id = Some a -> status a <> Aborting.
Proof.
  intros [(_ & _ & Hall) | (_ & init & a0 & Heq & Hst & Hall)] Hl Ha.
  - rewrite Forall_forall in Hall.
    destruct (Hall a) as [H | H]; [apply list_elem_of_lookup; eauto | congruence ..].
  - rewrite Heq in Hl. apply lookup_app_Some in Hl as [Hl | [_ Hl]].
    + rewrite Forall_forall in Hall.
      destruct (Hall a) as [H | H]; [apply list_elem_of_lookup; eauto | congruence ..].
    + apply list_lookup_singleton_Some in Hl as [_ <-]. destruct Hst; congruence.
Qed.

Lemma playing_now_after_callback (f : Audio -> Audio) init a blob :
  Forall finished init -> finished (f a) ->
  filter (fun a => active a = true) (alter f (length init) (init ++ [a]) ++ [started blob])
  = [started blob].
Proof.
  intros Hall Ha. rewrite alter_last, filter_app.
  rewrite playing_now_finished; [reflexivity|].
  apply Forall_app. split; [assumption | constructor; [assumption | constructor]].
Qed.

(** C3. Without an interruption, whatever is enqueued and whatever the
    browser reports: the clips started so far, followed by the clips that
    wait, are the enqueued clips in their order; at most one element is
    loading or playing; every element but the last one created has had its
    ended event or the rejection of its [play()]; and an enqueue while an
    element plays starts nothing.  Clips do start: when no element is
    loading or playing, nothing waits and every enqueued clip has been
    started; a clip enqueued then is started at once; the ended event or
    the rejection of the element that plays starts the clip at the head of
    the queue, which is then the one element loading; and an element is
    created at no other moment. *)
Theorem playback_fifo_no_overlap (es : list PlaybackEvent) :
  no_stopAll es ->
  let p := playback_run es initialPlayback in
  map clip (audios p) ++ audioQueueRef p = enqueued es
  /\ (length (playing_now p) <= 1)%nat
  /\ (forall i a, audios p !! i = Some a -> (S i < length (audios p))%nat ->
        status a = Ended \/ status a = Failed)
  /\ (forall blob, playing_now p <> [] ->
        audios (playback_step (Enqueue blob) p) = audios p
        /\ playing_now (playback_step (Enqueue blob) p) = playing_now p)
  /\ (playing_now p = [] ->
        isPlayingRef p = false /\ audioQueueRef p = []
        /\ map clip (audios p) = enqueued es)
  /\ (forall blob, playing_now p = [] ->
        audios (playback_step (Enqueue blob) p) = audios p ++ [started blob]
        /\ audioQueueRef (playback_step (Enqueue blob) p) = []
        /\ playing_now (playback_step (Enqueue blob) p) = [started blob])
  /\ (forall id a blob rest,
        audios p !! id = Some a -> audioQueueRef p = blob :: rest ->
        (status a = Playing ->
           audios (playback_step (AudioEnded id) p)
           = alter (fun a => revoke (with_status Ended a)) id (audios p) ++ [started blob]
           /\ audioQueueRef (playback_step (AudioEnded id) p) = rest
           /\ playing_now (playback_step (AudioEnded id) p) = [started blob])
        /\ (status a = Loading ->
           audios (playback_step (PlayRejected id) p)
           = alter (with_status Failed) id (audios p) ++ [started blob]
           /\ audioQueueRef (playback_step (PlayRejected id) p) = rest
           /\ playing_now (playback_step (PlayRejected id) p) = [started blob]))
  /\ (forall e, e <> StopAll ->
        length (audios (playback_step e p)) <> length (audios p) ->
        (playing_now p = [] /\ exists blob, e = Enqueue blob)
        \/ (exists id a, audios p !! id = Some a /\ playing_now p = [a]
              /\ ((e = AudioEnded id /\ status a = Playing)
                  \/ (e = PlayRejected id /\ status a = Loading)))).
Proof.
  intros Hno p. destruct (serial_run es Hno) as [Hs Ho]. fold p in Hs, Ho.
  assert (Hidle : playing_now p = [] ->
                  isPlayingRef p = false /\ audioQueueRef p = []
                  /\ Forall finished (audios p)).
  { intros Hnil. destruct Hs as [H | (Hp & init & a & Heq & Hst & Hall)]; [exact H|].
    exfalso. revert Hnil. unfold playing_now.
    rewrite Heq, filter_app, (playing_now_finished init Hall).
    rewrite filter_cons_True; [discriminate|].
    unfold active. now destruct Hst as [-> | ->]. }
  split; [exact Ho|]. split; [|split; [|split; [|split; [|split; [|split]]]]].
  - destruct (serial_playing_now p Hs) as [[_ ->] | (_ & a & -> & _)]; simpl; lia.
  - intros i a Hl Hi.
    destruct Hs as [(_ & _ & Hall) | (_ & init & a0 & Heq & _ & Hall)].
    + rewrite Forall_forall in Hall. apply Hall, list_elem_of_lookup. eauto.
    + rewrite Heq in Hl, Hi. rewrite length_app in Hi. simpl in Hi.
      rewrite lookup_app_l in Hl by lia.
      rewrite Forall_forall in Hall. apply Hall, list_elem_of_lookup. eauto.
  - intros blob Hbusy.
    destruct (serial_playing_now p Hs) as [[_ Hnil] | (Hp & _)]; [congruence|].
    simpl. unfold playAudioResponse, playing_now.
    rewrite processQueue_idle by (now left). simpl. auto.
  - intros Hnil. destruct (Hidle Hnil) as (Hp & Hq & _).
    split; [assumption|]. split; [assumption|].
    unfold order in Ho. rewrite Hq, app_nil_r in Ho. exact Ho.
  - intros blob Hnil. destruct (Hidle Hnil) as (Hp & Hq & Hall).
    simpl. unfold playAudioResponse.
    erewrite processQueue_start; [| exact Hp | simpl; rewrite Hq; reflexivity].
    unfold playing_now. simpl. split; [reflexivity|]. split; [reflexivity|].
    rewrite filter_app, (playing_now_finished _ Hall). reflexivity.
  - intros id a blob rest Hl Hq. split; intros Hst.
    + destruct (serial_current p id a Hs Hl) as (_ & _ & init & Heq & -> & Hall);
        [now right|].
      cbn [playback_step]. unfold status_of. rewrite Hl. cbn [fmap option_fmap option_map].
      rewrite Hst. unfold audio_onended, set_status.
      cbn [audioQueueRef audios isPlayingRef currentAudioRef].
      erewrite processQueue_start; [| reflexivity | exact Hq].
      unfold playing_now. cbn [audioQueueRef audios isPlayingRef currentAudioRef].
      rewrite list_alter_alter_eq.
      split; [reflexivity|]. split; [reflexivity|].
      rewrite Heq. apply playing_now_after_callback; [assumption | now left].
    + destruct (serial_current p id a Hs Hl) as (_ & _ & init & Heq & -> & Hall);
        [now left|].
      cbn [playback_step]. unfold status_of. rewrite Hl. cbn [fmap option_fmap option_map].
      rewrite Hst. unfold play_catch, set_status.
      cbn [audioQueueRef audios isPlayingRef currentAudioRef].
      erewrite processQueue_start; [| reflexivity | exact Hq].
      unfold playing_now. cbn [audioQueueRef audios isPlayingRef currentAudioRef].
      split; [reflexivity|]. split; [reflexivity|].
      rewrite Heq. apply playing_now_after_callback; [assumption | now right].
  - intros e He Hlen. destruct e as [blob | | id | id | id]; [ | congruence | | | ].
    + left. split; [|eauto].
      destruct (serial_playing_now p Hs) as [[_ Hnil] | (Hp & _)]; [assumption|].
      exfalso. apply Hlen. simpl. unfold playAudioResponse.
      rewrite processQueue_idle by (now left). reflexivity.
    + exfalso. apply Hlen. simpl.
      destruct (status_of id p) as [[]|]; try reflexivity.
      unfold set_status. simpl. apply length_alter.
    + right. simpl in Hlen.
      destruct (status_of id p) as [[]|] eqn:E; try (exfalso; now apply Hlen).
      * apply status_of_Some in E as (a & Hl & Ha).
        destruct (serial_current p id a Hs Hl) as (_ & Hnow & _); [now left|].
        exists id, a. auto.
      * apply status_of_Some in E as (a & Hl & Ha).
        exfalso. exact (serial_no_aborting p id a Hs Hl Ha).
    + right. simpl in Hlen.
      destruct (status_of id p) as [[]|] eqn:E; try (exfalso; now apply Hlen).
      apply status_of_Some in E as (a & Hl & Ha).
      destruct (serial_current p id a Hs Hl) as (_ & Hnow & _); [now right|].
      exists id, a. auto.
Qed.

Lemma playback_fifo_no_overlap_witness :
  let p := playback_run
             [Enqueue [Byte.x01]; Enqueue [Byte.x02]; PlayResolved 0; AudioEnded 0]
             initialPlayback in
  map clip (audios p) ++ audioQueueRef p = [[Byte.x01]; [Byte.x02]]
  /\ (length (playing_now p) <= 1)%nat.
Proof.
  assert (Hno : no_stopAll
            [Enqueue [Byte.x01]; Enqueue [Byte.x02]; PlayResolved 0; AudioEnded 0]).
  { unfold no_stopAll. rewrite !not_elem_of_cons. repeat split; try discriminate.
    apply not_elem_of_nil. }
  destruct (playback_fifo_no_overlap _ Hno) as (H1 & H2 & _).
  split; [exact H1 | exact H2].
Defined.

(** *** Object URLs *)

Lemma stranded_alter (f : Audio -> Audio) (id id' : nat) (l : list Audio) :
  (forall a, stranded a -> stranded (f a)) ->
  (exists a, l !! id = Some a /\ stranded a) ->
  exists a, alter f id' l !! id = Some a /\ stranded a.
Proof.
  intros Hf (a & Hl & Ha). destruct (decide (id' = id)) as [-> | Hne].
  - exists (f a). split; [|auto]. rewrite list_lookup_alter_eq, Hl. reflexivity.
  - exists a. split; [|assumption]. now rewrite list_lookup_alter_ne.
Qed.

Lemma stranded_processQueue id p :
  stranded_at id p -> stranded_at id (processQueue p).
Proof.
  intros (a & Hl & Ha).
  destruct (isPlayingRef p) eqn:Hp; [now rewrite processQueue_idle by (now left); exists a|].
  destruct (audioQueueRef p) as [|blob rest] eqn:Hq;
    [now rewrite processQueue_idle by (now right); exists a|].
  rewrite (processQueue_start p blob rest Hp Hq). exists a. simpl.
  split; [|assumption]. apply lookup_app_l_Some. assumption.
Qed.

Lemma stranded_failed a : stranded a -> stranded (with_status Failed a).
Proof. intros [Hr _]. split; [exact Hr | simpl; auto]. Qed.

Lemma stranded_pause a : stranded a -> stranded (pause a).
Proof. intros [Hr Hs]. unfold pause. destruct Hs as [E | [E | E]]; rewrite E; split; auto. Qed.

Lemma stranded_step e id p : stranded_at id p -> stranded_at id (playback_step e p).
Proof.
  intros Hs. destruct e as [blob | | id' | id' | id']; simpl.
  - apply stranded_processQueue. exact Hs.
  - unfold stranded_at, stopAudioPlayback. simpl.
    destruct (currentAudioRef p); [|exact Hs].
    apply stranded_alter; [apply stranded_pause | exact Hs].
  - destruct (status_of id' p) as [[]|] eqn:E; try exact Hs.
    apply status_of_Some in E as (a' & Hl' & Ha').
    destruct Hs as (a & Hl & Ha). exists a. split; [|assumption].
    unfold set_status. simpl. rewrite list_lookup_alter_ne; [assumption|].
    intros ->. rewrite Hl in Hl'. injection Hl' as <-.
    destruct Ha as [_ [H | [H | H]]]; congruence.
  - destruct (status_of id' p) as [[]|] eqn:E; try exact Hs;
      apply stranded_processQueue; unfold stranded_at, set_status; simpl;
      (apply stranded_alter; [apply stranded_failed | exact Hs]).
  - destruct (status_of id' p) as [[]|] eqn:E; try exact Hs.
    apply status_of_Some in E as (a' & Hl' & Ha').
    destruct Hs as (a & Hl & Ha).
    assert (id' <> id) as Hne.
    { intros ->. rewrite Hl in Hl'. injection Hl' as <-.
      destruct Ha as [_ [H | [H | H]]]; congruence. }
    apply stranded_processQueue. exists a. split; [|assumption].
    unfold set_status. simpl. now rewrite !list_lookup_alter_ne.
Qed.

Lemma stranded_run es id p : stranded_at id p -> stranded_at id (playback_run es p).
Proof.
  revert p. induction es as [|e es IH]; intros p Hs; [exact Hs|].
  simpl. apply IH, stranded_step, Hs.
Qed.

(** C9, as the code behaves.  The object URL of a clip is revoked by its
    ended event; the URL of a clip that is interrupted while it plays, and
    the URL of a clip whose [play()] is rejected, is not revoked then and
    never after, whatever follows. *)
Theorem interrupted_or_failed_clip_keeps_url (blob : Blob) (es : list PlaybackEvent) :
  revoked <$> audios (playback_run [Enqueue blob; PlayResolved 0; AudioEnded 0] initialPlayback) !! 0%nat
    = Some true
  /\ revoked <$> audios (playback_run ([Enqueue blob; PlayResolved 0; StopAll] ++ es) initialPlayback) !! 0%nat
    = Some false
  /\ revoked <$> audios (playback_run ([Enqueue blob; PlayRejected 0] ++ es) initialPlayback) !! 0%nat
    = Some false.
Proof.
  split; [reflexivity|]. unfold playback_run. rewrite !fold_left_app.
  split.
  - destruct (stranded_run es 0
                (playback_run [Enqueue blob; PlayResolved 0; StopAll] initialPlayback))
      as (a & Hl & Hr & _).
    + eexists. split; [reflexivity|]. split; simpl; auto.
    + unfold playback_run in Hl. rewrite Hl. simpl. now rewrite Hr.
  - destruct (stranded_run es 0
                (playback_run [Enqueue blob; PlayRejected 0] initialPlayback))
      as (a & Hl & Hr & _).
    + eexists. split; [reflexivity|]. split; simpl; auto.
    + unfold playback_run in Hl. rewrite Hl. simpl. now rewrite Hr.
Qed.

(** ** Inbound dispatch *)

Lemma onmessage_try_value JSON_parse atob raw w data :
  JSON_parse raw = JsonValue data ->
  onmessage_try JSON_parse atob raw w =
  match audio_handled atob data w with
  | None => Throw w
  | Some w' =>
      if truthy (data_text data) && negb (is_string (data_type data) "transcript")
      then Normal (add agent (data_text data) w')
      else if is_string (data_type data) "transcript"
      then Normal (add user (data_text data) w')
      else if is_string (data_type data) "text_response"
      then Normal (add agent (data_text data) w')
      else Normal w'
  end.
Proof.
  intros H. unfold onmessage_try, audio_handled. rewrite H.
  destruct (truthy (data_audio data)); [|reflexivity].
  destruct (atob (toString (data_audio data))); reflexivity.
Qed.

(** C5, as the code behaves.  The handler of a textual frame always returns.
    A frame that does not parse, that parses to null or whose audio does
    not decode gives [addMessage('agent', raw)].  Otherwise, once the audio
    is handled, type "transcript" gives [addMessage('user', text)], type
    "text_response" gives [addMessage('agent', text)], a non-empty text
    with no type gives [addMessage('agent', text)], and an empty or missing
    text with no type leaves the transcript as it is. *)
Theorem inbound_text_dispatch
  (JSON_parse : string -> Parsed) (atob : string -> option string)
  (raw : string) (w : World) :
  (exists w', ws_onmessage JSON_parse atob (StringData raw) w = Normal w')
  /\ (JSON_parse raw = SyntaxError \/ JSON_parse raw = JsonNull ->
      ws_onmessage JSON_parse atob (StringData raw) w = Normal (add agent (str raw) w))
  /\ (forall data, JSON_parse raw = JsonValue data -> audio_handled atob data w = None ->
      ws_onmessage JSON_parse atob (StringData raw) w = Normal (add agent (str raw) w))
  /\ (forall data w1, JSON_parse raw = JsonValue data -> audio_handled atob data w = Some w1 ->
      (data_type data = str "transcript" ->
       ws_onmessage JSON_parse atob (StringData raw) w = Normal (add user (data_text data) w1))
      /\ (data_type data = str "text_response" ->
          ws_onmessage JSON_parse atob (StringData raw) w = Normal (add agent (data_text data) w1))
      /\ (data_type data = undefined -> truthy (data_text data) = true ->
          ws_onmessage JSON_parse atob (StringData raw) w = Normal (add agent (data_text data) w1))
      /\ (data_type data = undefined -> truthy (data_text data) = false ->
          ws_onmessage JSON_parse atob (StringData raw) w = Normal w1)).
Proof.
  split; [|split; [|split]].
  - simpl. destruct (onmessage_try JSON_parse atob raw w); eauto.
  - intros [H | H]; simpl; unfold onmessage_try; now rewrite H.
  - intros data Hp Ha. simpl. rewrite (onmessage_try_value _ _ _ _ _ Hp), Ha. reflexivity.
  - intros data w1 Hp Ha. simpl. rewrite (onmessage_try_value _ _ _ _ _ Hp), Ha.
    repeat split.
    + intros ->. simpl. now rewrite andb_false_r.
    + intros ->. simpl. rewrite andb_true_r. now destruct (truthy (data_text data)).
    + intros -> ->. reflexivity.
    + intros -> ->. reflexivity.
Qed.

Lemma inbound_text_dispatch_witness :
  let data := {| data_audio := undefined; data_text := str "what is my balance";
                 data_type := str "transcript" |} in
  messages (react (add user (data_text data) (mount 5)))
    = [ {| sender := user; text := str "what is my balance"; time := 5 |} ]
  /\ ws_onmessage (fun _ => JsonValue data) (fun _ => None) (StringData "frame") (mount 5)
     = Normal (add user (data_text data) (mount 5)).
Proof.
  intros data. split; [reflexivity|].
  destruct (inbound_text_dispatch (fun _ => JsonValue data) (fun _ => None) "frame" (mount 5))
    as (_ & _ & _ & H).
  destruct (H data (mount 5) eq_refl eq_refl) as (Htranscript & _).
  exact (Htranscript eq_refl).
Defined.

(** Against C5 as stated: a frame that parses, has a text field (the empty
    string) and no type adds nothing to the transcript. *)
Lemma empty_text_frame_adds_no_message :
  let data := {| data_audio := undefined; data_text := str EmptyString;
                 data_type := undefined |} in
  ws_onmessage (fun _ => JsonValue data) (fun _ => None) (StringData "frame") (mount 5)
    = Normal (mount 5)
  /\ messages (react (mount 5)) = [].
Proof. split; reflexivity. Qed.

(** ** Text send *)

Lemma trimStart_blank s : blank s -> trimStart s = EmptyString.
Proof.
  unfold blank. induction s as [|c s IH]; simpl; intros H; [reflexivity|].
  apply Forall_cons in H as [-> H]. auto.
Qed.

Lemma trim_blank s : blank s -> trim s = EmptyString.
Proof. intros H. unfold trim. now rewrite (trimStart_blank s H). Qed.

Lemma trimEnd_empty s : trimEnd s = EmptyString -> blank s.
Proof.
  unfold blank. induction s as [|c s IH]; simpl; intros H; [constructor|].
  destruct (trimEnd s) eqn:E; [|discriminate].
  destruct (isWhiteSpace c) eqn:Ec; [|discriminate].
  constructor; auto.
Qed.

Lemma trim_empty_blank s : trim s = EmptyString -> blank s.
Proof.
  unfold trim, blank. induction s as [|c s IH]; simpl; intros H; [constructor|].
  destruct (isWhiteSpace c) eqn:Ec.
  - constructor; auto.
  - apply trimEnd_empty in H. exact H.
Qed.

(** C10. The text send on an empty or all-white-space input does nothing at
    all: the world after it is the world before it, so nothing was sent, no
    socket was made, no retry waits, and transcript and input field are
    what they were. *)
Theorem blank_send_is_noop (r : Render) (w : World) :
  blank (inputText r) ->
  handleSendMessage r w = w
  /\ wire (conn (handleSendMessage r w)) = wire (conn w)
  /\ trace (handleSendMessage r w) = trace w
  /\ websocketRef (conn (handleSendMessage r w)) = websocketRef (conn w)
  /\ timers (sched (handleSendMessage r w)) = timers (sched w)
  /\ messages (react (handleSendMessage r w)) = messages (react w)
  /\ inputText (react (handleSendMessage r w)) = inputText (react w).
Proof.
  intros H. assert (handleSendMessage r w = w) as ->; [|tauto].
  unfold handleSendMessage. now rewrite (trim_blank _ H).
Qed.

Lemma blank_send_is_noop_witness :
  let r := {| isOpen := true; isRecording := false; isConnected := false; isHandsFree := false;
              messages := []; inputText := "   " |} in
  handleSendMessage r (mount 5) = mount 5.
Proof.
  intros r. apply (blank_send_is_noop r (mount 5)).
  unfold blank. simpl. repeat constructor.
Defined.

Lemma connectWebSocket_open w : is_open w = true -> connectWebSocket w = w.
Proof.
  unfold is_open, connectWebSocket. destruct (readyState w) as [[]|]; congruence.
Qed.

Lemma connectWebSocket_frame w :
  is_open w = false ->
  is_open (connectWebSocket w) = false
  /\ react (connectWebSocket w) = react w
  /\ sched (connectWebSocket w) = sched w
  /\ wire (conn (connectWebSocket w)) = wire (conn w).
Proof.
  unfold is_open, connectWebSocket, readyState.
  destruct (websocketRef (conn w)) as [[]|] eqn:E; simpl; rewrite ?E; intros; auto; congruence.
Qed.

Lemma connected_first_frame r w :
  is_open w = false ->
  is_open (connected_first r w) = false
  /\ react (connected_first r w) = react w
  /\ sched (connected_first r w) = sched w
  /\ wire (conn (connected_first r w)) = wire (conn w).
Proof.
  intros H. unfold connected_first. destruct (isConnected r); simpl; auto.
  now apply connectWebSocket_frame.
Qed.

Lemma connected_first_open r w : is_open w = true -> connected_first r w = w.
Proof.
  intros H. unfold connected_first. destruct (isConnected r); simpl; auto.
  now apply connectWebSocket_open.
Qed.

Lemma handleSendMessage_pending r w :
  trim (inputText r) <> EmptyString -> is_open w = false ->
  handleSendMessage r w = setTimeout (RetrySend r) 500 (connected_first r w).
Proof.
  intros Ht Ho. unfold handleSendMessage. fold (connected_first r w).
  destruct (trim (inputText r)); [congruence|].
  destruct (connected_first_frame r w Ho) as [-> _]. reflexivity.
Qed.

Lemma handleSendMessage_open r w :
  trim (inputText r) <> EmptyString -> is_open w = true ->
  handleSendMessage r w =
  setInputText EmptyString
    (add user (str (inputText r)) (send (TextFrame (inputText r)) w)).
Proof.
  intros Ht Ho. unfold handleSendMessage. fold (connected_first r w).
  destruct (trim (inputText r)); [congruence|].
  rewrite (connected_first_open r w Ho), Ho. reflexivity.
Qed.

Lemma send_open f w :
  is_open w = true ->
  send f w = set_conn (fun c => {| websocketRef := websocketRef c; wire := wire c ++ [f] |})
               (emit (Send f) w).
Proof.
  unfold is_open, send. destruct (readyState w) as [[]|]; congruence.
Qed.

Lemma delete_last {A} (l : list A) (x : A) : delete (length l) (l ++ [x]) = l.
Proof. induction l as [|a l IH]; simpl; [reflexivity|]. now f_equal. Qed.

Lemma fireTimer_last w ts d cb :
  timers (sched w) = ts ++ [(d, cb)] ->
  fireTimer (length ts) w =
  match cb with
  | RetrySend r => handleSendMessage r (remove_timer (length ts) w)
  | Restart r => startRecording r (remove_timer (length ts) w)
  end
  /\ timers (sched (remove_timer (length ts) w)) = ts.
Proof.
  intros H. unfold fireTimer. rewrite H.
  rewrite lookup_app_r by lia. rewrite Nat.sub_diag. simpl.
  rewrite H, delete_last. now destruct cb.
Qed.

(** C6, as the code behaves.  A send of a text that is not blank while the
    socket is not open sends nothing and leaves transcript and input field
    alone; it leaves one retry of the same send, 500 ms later.  A retry
    that still finds the socket not open leaves the next retry.  The retry
    that finds the socket open transmits [{text}] and only then adds the
    text to the transcript as a user message and empties the input field.
    A second send made in the meantime has a retry of its own. *)
Theorem text_send_while_not_open (r : Render) (w : World) :
  trim (inputText r) <> EmptyString ->
  is_open w = false ->
  let n := length (timers (sched w)) in
  let w1 := handleSendMessage r w in
  (messages (react w1) = messages (react w)
   /\ inputText (react w1) = inputText (react w)
   /\ wire (conn w1) = wire (conn w)
   /\ timers (sched w1) = timers (sched w) ++ [(500, RetrySend r)])
  /\ (let w2 := fireTimer n w1 in
      messages (react w2) = messages (react w)
      /\ wire (conn w2) = wire (conn w)
      /\ timers (sched w2) = timers (sched w) ++ [(500, RetrySend r)])
  /\ (let w3 := fireTimer n (ws_onopen w1) in
      wire (conn w3) = wire (conn w) ++ [TextFrame (inputText r)]
      /\ messages (react w3) =
         addMessage (clock (sched w)) user (str (inputText r))
           (addMessage (clock (sched w)) system (str "Connected to Banking Assistant")
              (messages (react w)))
      /\ inputText (react w3) = EmptyString
      /\ timers (sched w3) = timers (sched w))
  /\ (forall r2, trim (inputText r2) <> EmptyString ->
      let w4 := handleSendMessage r2 w1 in
      timers (sched w4) = timers (sched w) ++ [(500, RetrySend r); (500, RetrySend r2)]
      /\ wire (conn (fireTimer n (fireTimer n (ws_onopen w4))))
         = wire (conn w) ++ [TextFrame (inputText r); TextFrame (inputText r2)]).
Proof.
  intros Ht Ho n w1. subst n.
  pose proof (handleSendMessage_pending r w Ht Ho) as E1. fold w1 in E1.
  destruct (connected_first_frame r w Ho) as (Ho1 & Hr1 & Hs1 & Hw1).
  assert (Hopen1 : is_open w1 = false) by (rewrite E1; exact Ho1).
  assert (Htim1 : timers (sched w1) = timers (sched w) ++ [(500, RetrySend r)])
    by (rewrite E1; simpl; now rewrite Hs1).
  assert (Hmsg1 : react w1 = react w) by (rewrite E1; exact Hr1).
  assert (Hwire1 : wire (conn w1) = wire (conn w)) by (rewrite E1; exact Hw1).
  assert (Hclock1 : clock (sched w1) = clock (sched w)) by (rewrite E1; simpl; now rewrite Hs1).
  clearbody w1. clear E1.
  split; [|split; [|split]].
  - rewrite Hmsg1. auto.
  - cbv zeta. destruct (fireTimer_last w1 _ _ _ Htim1) as [-> Hrem].
    rewrite (handleSendMessage_pending r _ Ht) by exact Hopen1.
    destruct (connected_first_frame r (remove_timer (length (timers (sched w))) w1))
      as (_ & Hr2 & Hs2 & Hw2); [exact Hopen1|].
    cbn [setTimeout set_sched react conn sched timers].
    rewrite Hr2, Hs2, Hw2, Hrem.
    cbn [remove_timer set_sched react conn]. rewrite Hmsg1, Hwire1. auto.
  - cbv zeta.
    assert (Htim : timers (sched (ws_onopen w1)) = timers (sched w) ++ [(500, RetrySend r)])
      by exact Htim1.
    destruct (fireTimer_last (ws_onopen w1) _ _ _ Htim) as [-> Hrem].
    rewrite (handleSendMessage_open r _ Ht) by reflexivity.
    rewrite send_open by reflexivity.
    cbn -[addMessage] in Hrem |- *.
    rewrite Hwire1, Hmsg1, Hclock1, Hrem. auto.
  - intros r2 Ht2 w4.
    pose proof (handleSendMessage_pending r2 w1 Ht2 Hopen1) as E4. fold w4 in E4.
    destruct (connected_first_frame r2 w1 Hopen1) as (Ho4 & Hr4 & Hs4 & Hw4).
    assert (Htim4 : timers (sched w4)
                    = timers (sched w) ++ [(500, RetrySend r); (500, RetrySend r2)]).
    { rewrite E4. simpl. now rewrite Hs4, Htim1, <- app_assoc. }
    assert (Hwire4 : wire (conn w4) = wire (conn w)) by (rewrite E4; simpl; congruence).
    clearbody w4. clear E4.
    split; [exact Htim4|].
    assert (Hfire1 : fireTimer (length (timers (sched w))) (ws_onopen w4)
                     = handleSendMessage r
                         (remove_timer (length (timers (sched w))) (ws_onopen w4))).
    { unfold fireTimer. cbn -[addMessage]. rewrite Htim4.
      rewrite lookup_app_r by lia. now rewrite Nat.sub_diag. }
    rewrite Hfire1.
    rewrite (handleSendMessage_open r _ Ht) by reflexivity.
    rewrite send_open by reflexivity.
    unfold fireTimer. cbn -[addMessage handleSendMessage]. rewrite Htim4.
    rewrite delete_middle.
    rewrite lookup_app_r by lia. rewrite Nat.sub_diag. cbn -[addMessage handleSendMessage].
    rewrite (handleSendMessage_open r2 _ Ht2) by reflexivity.
    rewrite send_open by reflexivity. cbn -[addMessage].
    rewrite Hwire4, <- app_assoc. reflexivity.
Qed.

Lemma text_send_while_not_open_witness :
  let r := {| isOpen := true; isRecording := false; isConnected := false; isHandsFree := false;
              messages := []; inputText := "hi" |} in
  let w := connectWebSocket (mount 5) in
  messages (react (handleSendMessage r w)) = []
  /\ timers (sched (handleSendMessage r w)) = [(500, RetrySend r)]
  /\ wire (conn (fireTimer 0 (ws_onopen (handleSendMessage r w)))) = [TextFrame "hi"].
Proof.
  intros r w.
  assert (Ht : trim (inputText r) <> EmptyString) by (simpl; discriminate).
  assert (Ho : is_open w = false) by reflexivity.
  destruct (text_send_while_not_open r w Ht Ho) as ((Hm & _ & _ & Htim) & _ & (Hw & _) & _).
  split; [exact Hm|]. split; [exact Htim | exact Hw].
Defined.

(** Against C6 as stated: while the socket is connecting, a send of "a"
    followed by a send of "b" puts no user message into the transcript, and
    both sends, not only the later one, wait for their retry and are
    transmitted after the socket has opened. *)
Lemma text_send_has_no_local_echo :
  let ra := {| isOpen := true; isRecording := false; isConnected := false; isHandsFree := false;
               messages := []; inputText := "a" |} in
  let rb := {| isOpen := true; isRecording := false; isConnected := false; isHandsFree := false;
               messages := []; inputText := "b" |} in
  let w := connectWebSocket (mount 5) in
  messages (react (handleSendMessage ra w)) = []
  /\ wire (conn (handleSendMessage ra w)) = []
  /\ timers (sched (handleSendMessage rb (handleSendMessage ra w)))
     = [(500, RetrySend ra); (500, RetrySend rb)]
  /\ wire (conn (fireTimer 0 (fireTimer 0
                  (ws_onopen (handleSendMessage rb (handleSendMessage ra w))))))
     = [TextFrame "a"; TextFrame "b"].
Proof. repeat split; reflexivity. Qed.

(** ** Capture pipeline *)

Lemma mediaRecorder_onstop_flush k rec w :
  recorders (cap w) !! k = Some rec ->
  is_open w = true -> chunks rec <> [] ->
  mediaRecorder_onstop k w =
  set_recorders (alter clear_chunks k)
    (set_conn (fun c => {| websocketRef := websocketRef c;
                           wire := wire c ++ [AudioFrame (concat (chunks rec))] |})
       (emit (Send (AudioFrame (concat (chunks rec)))) w)).
Proof.
  intros Hk Ho Hc. unfold mediaRecorder_onstop. rewrite Hk, Ho.
  destruct (chunks rec) as [|c cs] eqn:E; [congruence|]. simpl.
  rewrite send_open by exact Ho. reflexivity.
Qed.

Lemma mediaRecorder_onstop_drop k rec w :
  recorders (cap w) !! k = Some rec ->
  is_open w = false \/ chunks rec = [] ->
  mediaRecorder_onstop k w = w.
Proof.
  intros Hk H. unfold mediaRecorder_onstop. rewrite Hk.
  destruct H as [-> | ->]; [reflexivity|]. simpl. now rewrite andb_false_r.
Qed.

Lemma stopRecording_active r w k rec :
  isRecording r = true -> mediaRecorderRef (cap w) = Some k ->
  recorders (cap w) !! k = Some rec ->
  stopRecording r w = stopped_world k rec w.
Proof.
  intros Hr Hm Hk. unfold stopRecording, stopped_world. rewrite Hm, Hr.
  unfold stop_tracks. cbn -[alter]. rewrite list_lookup_alter_eq, Hk. cbn -[alter].
  unfold begin_stop. now destruct (recState rec).
Qed.

Lemma cap_cancelFrame w : cap (cancelFrame w) = cap w.
Proof. unfold cancelFrame. now destruct (animationFrameRef (sched w)) as [[|id]|]. Qed.

Lemma conn_cancelFrame w : conn (cancelFrame w) = conn w.
Proof. unfold cancelFrame. now destruct (animationFrameRef (sched w)) as [[|id]|]. Qed.

(** C8. The stop event of a recorder sends the concatenation of its chunks
    as one frame, and empties the buffer, exactly when the buffer is not
    empty and the socket is open; otherwise it changes nothing, so that
    nothing is sent and no retry waits, and a recorder that has had its
    stop event gets no other.  [stopRecording] in a render that is not
    recording changes nothing; in a render that is recording it stops the
    recorder in the ref, whose stop event then does the above. *)
Theorem stop_flushes_iff_open_and_buffered (r : Render) (k : nat) (rec : Recorder) (w : World) :
  recorders (cap w) !! k = Some rec ->
  (is_open w = true -> chunks rec <> [] ->
     wire (conn (mediaRecorder_onstop k w)) = wire (conn w) ++ [AudioFrame (concat (chunks rec))]
     /\ trace (mediaRecorder_onstop k w) = trace w ++ [Send (AudioFrame (concat (chunks rec)))]
     /\ chunks <$> recorders (cap (mediaRecorder_onstop k w)) !! k = Some [])
  /\ (is_open w = false \/ chunks rec = [] -> mediaRecorder_onstop k w = w)
  /\ (wire (conn (mediaRecorder_onstop k w)) <> wire (conn w) ->
      is_open w = true /\ chunks rec <> [])
  /\ (recState rec = inactive -> recorderStopped k w = w)
  /\ (isRecording r = false -> stopRecording r w = w)
  /\ (isRecording r = true -> mediaRecorderRef (cap w) = Some k -> recState rec = recording ->
      recState <$> recorders (cap (stopRecording r w)) !! k = Some stopping
      /\ wire (conn (stopRecording r w)) = wire (conn w)
      /\ recorderStopped k (stopRecording r w)
         = mediaRecorder_onstop k (set_recorders (alter end_stop k) (stopRecording r w))
      /\ recState <$> recorders (cap (recorderStopped k (stopRecording r w))) !! k
         = Some inactive).
Proof.
  intros Hk. split; [|split; [|split; [|split; [|split]]]].
  - intros Ho Hc. rewrite (mediaRecorder_onstop_flush k rec w Hk Ho Hc). simpl.
    repeat split. rewrite list_lookup_alter_eq, Hk. reflexivity.
  - apply mediaRecorder_onstop_drop. exact Hk.
  - intros Hne. destruct (is_open w) eqn:Ho.
    + split; [reflexivity|]. intros Hc. apply Hne.
      now rewrite (mediaRecorder_onstop_drop k rec w Hk) by (now right).
    + exfalso. apply Hne.
      now rewrite (mediaRecorder_onstop_drop k rec w Hk) by (now left).
  - intros Hi. unfold recorderStopped. rewrite Hk. simpl. now rewrite Hi.
  - intros Hr. unfold stopRecording. rewrite Hr. now destruct (mediaRecorderRef (cap w)).
  - intros Hr Hm Hrec.
    rewrite (stopRecording_active r w k rec Hr Hm Hk).
    assert (Hst : recState <$> recorders (cap (stopped_world k rec w)) !! k = Some stopping).
    { unfold stopped_world. rewrite cap_cancelFrame. cbn -[alter].
      rewrite list_lookup_alter_eq, Hk.
      unfold begin_stop. simpl. now rewrite Hrec. }
    split; [exact Hst|].
    split; [unfold stopped_world; now rewrite conn_cancelFrame|].
    assert (Hstep : recorderStopped k (stopped_world k rec w)
         = mediaRecorder_onstop k (set_recorders (alter end_stop k) (stopped_world k rec w))).
    { unfold recorderStopped. now rewrite Hst. }
    split; [exact Hstep|].
    rewrite Hstep. unfold mediaRecorder_onstop.
    destruct (recorders (cap (stopped_world k rec w)) !! k) as [rec'|] eqn:E'; [|discriminate].
    cbn -[alter stopped_world]. rewrite list_lookup_alter_eq, E'. cbn -[alter stopped_world].
    match goal with |- context [if ?c then _ else _] => destruct c end.
    + unfold send. destruct (readyState _) as [[]|];
        cbn -[alter stopped_world]; rewrite !list_lookup_alter_eq, E'; reflexivity.
    + cbn -[alter stopped_world]. rewrite list_lookup_alter_eq, E'. reflexivity.
Qed.

Lemma stop_flushes_iff_open_and_buffered_witness :
  let w := dataAvailable 0 [Byte.x02]
             (dataAvailable 0 [Byte.x01]
                (ws_onopen (mediaGranted 0 [] (clickMic (clickChat (mount 5)))))) in
  wire (conn (mediaRecorder_onstop 0 w)) = [AudioFrame [Byte.x01; Byte.x02]].
Proof.
  intros w.
  pose (rec := {| recState := recording; chunks := [[Byte.x01]; [Byte.x02]]; stream := 0 |}).
  destruct (stop_flushes_iff_open_and_buffered (react w) 0 rec w eq_refl) as (H & _).
  destruct (H eq_refl ltac:(discriminate)) as (Hwire & _).
  exact Hwire.
Defined.

Lemma streams_count_stop_tracks k w : streams_count (stop_tracks k w) = streams_count w.
Proof.
  unfold stop_tracks, streams_count. destruct (recorders (cap w) !! k); [|reflexivity].
  simpl. apply length_alter.
Qed.

Lemma streams_count_stopRecording r w : streams_count (stopRecording r w) = streams_count w.
Proof.
  unfold stopRecording. destruct (mediaRecorderRef (cap w)) as [k|]; [|reflexivity].
  destruct (isRecording r); [|reflexivity].
  unfold streams_count. rewrite cap_cancelFrame.
  change (streams_count (stop_tracks k (recorder_stop k w)) = streams_count w).
  now rewrite streams_count_stop_tracks.
Qed.

Lemma streams_count_send f w : streams_count (send f w) = streams_count w.
Proof. unfold send. now destruct (readyState w) as [[]|]. Qed.

Lemma streams_count_draw r data w : streams_count (draw r data w) = streams_count w.
Proof.
  unfold draw. destruct (isHandsFree r && isRecording r); [|reflexivity].
  destruct (speech data).
  - match goal with |- context [if ?c then _ else _] => destruct c end; [|reflexivity].
    now rewrite streams_count_send.
  - match goal with |- context [match ?x with Some _ => _ | None => _ end] =>
      destruct x as [[|t0|t0]|] end; try reflexivity;
    (match goal with |- context [if ?c then _ else _] => destruct c end; [|reflexivity]);
    change (streams_count (stopRecording r (requestAnimationFrame r w)) = streams_count w);
    now rewrite streams_count_stopRecording.
Qed.

Lemma trace_stopRecording r w :
  trace (stopRecording r w) = trace w
  \/ exists k, mediaRecorderRef (cap w) = Some k /\ trace (stopRecording r w) = trace w ++ [RecorderStop k].
Proof.
  unfold stopRecording. destruct (mediaRecorderRef (cap w)) as [k|]; [|now left].
  destruct (isRecording r); [|now left]. right. exists k. split; [reflexivity|].
  unfold cancelFrame, stop_tracks.
  destruct (recorders (cap (recorder_stop k w)) !! k);
    match goal with |- context [match ?x with Some _ => _ | None => _ end] =>
      destruct x as [[|id]|] end; reflexivity.
Qed.

Lemma cap_connected_first r w : cap (connected_first r w) = cap w.
Proof.
  unfold connected_first, connectWebSocket.
  destruct (isConnected r); simpl; [reflexivity|].
  now destruct (readyState w) as [[]|].
Qed.

Lemma streams_count_drawVisualizer r data w :
  streams_count (drawVisualizer r data w) = streams_count w.
Proof.
  unfold drawVisualizer. destruct (analyserRef (cap w) && canvasRef (cap w)); [|reflexivity].
  apply streams_count_draw.
Qed.

Lemma streams_count_resume r data w :
  streams_count (startRecording_resume r data w) = S (streams_count w).
Proof.
  unfold startRecording_resume.
  match goal with |- context [drawVisualizer r data ?W] =>
    pose proof (streams_count_drawVisualizer r data W) as H; revert H;
    generalize (drawVisualizer r data W) end.
  intros w' H. unfold streams_count in *. simpl in *. rewrite H, length_app. simpl. lia.
Qed.

(** The guard of the microphone button: in a render that is recording it
    stops, and asks for no device stream.  [startRecording] itself has no
    guard: it asks for a device stream whenever it is called, and every
    request that is granted adds a stream. *)
Lemma toggle_never_starts_while_recording (r : Render) (w : World) :
  (isRecording r = true ->
     toggleRecording r w = stopRecording r w
     /\ requests (cap (toggleRecording r w)) = requests (cap w)
     /\ streams_count (toggleRecording r w) = streams_count w
     /\ (trace (toggleRecording r w) = trace w
         \/ exists k, trace (toggleRecording r w) = trace w ++ [RecorderStop k]))
  /\ (requests (cap (startRecording r w)) = requests (cap w) ++ [r]
      /\ trace (startRecording r w) = trace (connected_first r w) ++ [GetUserMedia])
  /\ (forall i data, is_Some (requests (cap w) !! i) ->
      streams_count (mediaGranted i data w) = S (streams_count w)).
Proof.
  split; [|split].
  - intros Hr. unfold toggleRecording. rewrite Hr. split; [reflexivity|].
    split; [|split].
    + unfold stopRecording. destruct (mediaRecorderRef (cap w)) as [k|]; [|reflexivity].
      rewrite Hr, cap_cancelFrame. unfold stop_tracks.
      now destruct (recorders (cap (recorder_stop k w)) !! k).
    + apply streams_count_stopRecording.
    + destruct (trace_stopRecording r w) as [-> | (k & _ & ->)]; eauto.
  - unfold startRecording. fold (connected_first r w). split; [|reflexivity].
    simpl. now rewrite cap_connected_first.
  - intros i data [r' Hi]. unfold mediaGranted. rewrite Hi.
    rewrite streams_count_resume. reflexivity.
Qed.

Lemma toggle_never_starts_while_recording_witness :
  let w := mediaGranted 0 [] (clickMic (clickChat (mount 5))) in
  isRecording (react w) = true
  /\ streams_count w = 1%nat
  /\ streams_count (toggleRecording (react w) w) = 1%nat
  /\ requests (cap (toggleRecording (react w) w)) = [].
Proof.
  intros w.
  destruct (toggle_never_starts_while_recording (react w) w) as (H & _).
  destruct (H eq_refl) as (_ & Hreq & Hcount & _).
  split; [reflexivity|]. split; [reflexivity|]. split; [exact Hcount | exact Hreq].
Defined.

Lemma draw_idle r data w :
  isRecording r = false -> draw r data w = requestAnimationFrame r w.
Proof. intros Hr. unfold draw. rewrite Hr, andb_false_r. reflexivity. Qed.

Lemma drawVisualizer_idle r data w :
  isRecording r = false ->
  drawVisualizer r data w = w \/ drawVisualizer r data w = requestAnimationFrame r w.
Proof.
  intros Hr. unfold drawVisualizer.
  destruct (analyserRef (cap w) && canvasRef (cap w)); [right | now left].
  now apply draw_idle.
Qed.

Lemma cap_resume_idle r data w :
  isRecording r = false ->
  cap (startRecording_resume r data w) =
  {| mediaRecorderRef := Some (length (recorders (cap w)));
     recorders := recorders (cap w)
                  ++ [ {| recState := recording; chunks := [];
                          stream := length (streams (cap w)) |} ];
     streams := streams (cap w) ++ [true];
     analyserRef := true;
     canvasRef := canvasRef (cap w);
     requests := requests (cap w) |}.
Proof.
  intros Hr. unfold startRecording_resume.
  match goal with |- context [drawVisualizer r data ?W] =>
    destruct (drawVisualizer_idle r data W Hr) as [-> | ->] end;
    reflexivity.
Qed.

Lemma capturing_grows k sid w w' rs ss :
  recorders (cap w') = recorders (cap w) ++ rs ->
  streams (cap w') = streams (cap w) ++ ss ->
  capturing k sid w -> capturing k sid w'.
Proof.
  intros Hr Hs (rec & Hk & Hst & Hsid & Hlive). exists rec.
  rewrite Hr, Hs. repeat split; try assumption.
  - rewrite lookup_app_l; [assumption | now apply lookup_lt_Some in Hk].
  - rewrite lookup_app_l; [assumption | now apply lookup_lt_Some in Hlive].
Qed.

(** C4, which the code does not keep.  Take any capture session: recorder
    [k], the one in [mediaRecorderRef], records the live device stream
    [sid], the socket is open and the panel is on screen.  When the socket
    closes, [ws.onclose] sets [isRecording] to false and touches neither the
    recorder nor the stream.  The next click on the microphone therefore
    runs [startRecording], not [stopRecording]: it asks [getUserMedia] for a
    second device stream, and once that is granted two recorders record two
    live streams, and [mediaRecorderRef] has forgotten the first.  Two
    clicks on the microphone before the first stream is granted end the
    same way. *)
Theorem socket_close_lets_second_capture_start
  (JSON_parse : string -> Parsed) (atob : string -> option string)
  (w : World) (k sid : nat) (data : list Z) (t0 : Z) :
  isOpen (react w) = true -> is_open w = true ->
  mediaRecorderRef (cap w) = Some k -> capturing k sid w ->
  let w1 := step JSON_parse atob SocketClose w in
  let w2 := step JSON_parse atob ClickMic w1 in
  let w3 := step JSON_parse atob (MediaGranted (length (requests (cap w))) data) w2 in
  let k' := length (recorders (cap w)) in
  let sid' := length (streams (cap w)) in
  (isRecording (react w1) = false /\ cap w1 = cap w /\ trace w1 = trace w)
  /\ (w2 = startRecording (react w1) w1
      /\ requests (cap w2) = requests (cap w) ++ [react w1]
      /\ trace w2 = trace w ++ [NewWebSocket; GetUserMedia])
  /\ (capturing k sid w3 /\ capturing k' sid' w3 /\ k <> k' /\ sid <> sid'
      /\ streams (cap w3) = streams (cap w) ++ [true]
      /\ mediaRecorderRef (cap w3) = Some k'
      /\ isRecording (react w3) = true
      /\ trace w3 = trace w2)
  /\ (let v := run JSON_parse atob
                 [ClickFab; ClickMic; ClickMic; MediaGranted 0 data; MediaGranted 0 data]
                 (mount t0) in
      streams (cap v) = [true; true]
      /\ recState <$> recorders (cap v) = [recording; recording]
      /\ stream <$> recorders (cap v) = [0; 1]%nat).
Proof.
  intros Hopen Hsock Href Hcap w1 w2 w3 k' sid'.
  assert (E1 : w1 = ws_onclose w).
  { unfold w1, is_open in *. cbn [step].
    now destruct (readyState w) as [[]|]. }
  assert (Hopen1 : isOpen (react w1) = true) by now rewrite E1.
  assert (Hidle : isRecording (react w1) = false) by now rewrite E1.
  assert (E2 : w2 = startRecording (react w1) w1).
  { unfold w2. cbn [step]. rewrite Hopen1. unfold clickMic, toggleRecording.
    now rewrite Hidle. }
  assert (E3 : w3 = mediaGranted (length (requests (cap w))) data w2) by reflexivity.
  clearbody w1 w2 w3.
  assert (Hcap1 : cap w1 = cap w) by now rewrite E1.
  assert (Hreq : requests (cap w2) = requests (cap w) ++ [react w1]).
  { rewrite E2. unfold startRecording. fold (connected_first (react w1) w1).
    cbn. now rewrite cap_connected_first, Hcap1. }
  assert (Hcap2 : recorders (cap w2) = recorders (cap w)
                  /\ streams (cap w2) = streams (cap w)).
  { rewrite E2. unfold startRecording. fold (connected_first (react w1) w1).
    cbn. now rewrite cap_connected_first, Hcap1. }
  assert (E4 : w3 = startRecording_resume (react w1) data
                      (set_requests (delete (length (requests (cap w)))) w2)).
  { rewrite E3. unfold mediaGranted. now rewrite Hreq, list_lookup_middle. }
  assert (Hcap3 : recorders (cap w3)
                  = recorders (cap w) ++ [ {| recState := recording; chunks := [];
                                              stream := sid' |} ]
                  /\ streams (cap w3) = streams (cap w) ++ [true]
                  /\ mediaRecorderRef (cap w3) = Some k').
  { rewrite E4, (cap_resume_idle _ _ _ Hidle). cbn.
    destruct Hcap2 as [-> ->]. auto. }
  destruct Hcap3 as (Hrec3 & Hstr3 & Href3).
  split; [|split; [|split]].
  - split; [assumption|]. split; [assumption|]. now rewrite E1.
  - split; [assumption|]. split; [assumption|].
    rewrite E2, E1. cbn. unfold connectWebSocket. cbn. now rewrite <- app_assoc.
  - split; [exact (capturing_grows k sid w w3 _ _ Hrec3 Hstr3 Hcap)|].
    destruct Hcap as (rec & Hk & _ & _ & Hlive).
    apply lookup_lt_Some in Hk. apply lookup_lt_Some in Hlive.
    split; [|split; [unfold k'; lia | split; [unfold sid'; lia|]]].
    + exists {| recState := recording; chunks := []; stream := sid' |}.
      rewrite Hrec3, Hstr3. unfold k', sid'.
      rewrite !list_lookup_middle by reflexivity. auto.
    + split; [assumption|]. split; [assumption|].
      rewrite E4. unfold startRecording_resume. split; [reflexivity|].
      match goal with |- context [drawVisualizer ?r data ?W] =>
        destruct (drawVisualizer_idle r data W Hidle) as [-> | ->] end;
        reflexivity.
  - repeat split; reflexivity.
Qed.

Lemma socket_close_lets_second_capture_start_witness :
  let w := run no_parse no_atob [ClickFab; ClickMic; MediaGranted 0 []; SocketOpen] (mount 5) in
  let w3 := run no_parse no_atob [SocketClose; ClickMic; MediaGranted 0 []] w in
  (isOpen (react w) = true /\ is_open w = true /\ isRecording (react w) = true
   /\ streams (cap w) = [true])
  /\ capturing 0 0 w3 /\ capturing 1 1 w3
  /\ streams (cap w3) = [true; true]
  /\ mediaRecorderRef (cap w3) = Some 1%nat.
Proof.
  intros w w3.
  assert (Hcap : capturing 0 0 w).
  { exists {| recState := recording; chunks := []; stream := 0 |}. repeat split. }
  destruct (socket_close_lets_second_capture_start no_parse no_atob w 0 0 [] 5
              eq_refl eq_refl eq_refl Hcap)
    as (_ & _ & (H1 & H2 & _ & _ & H3 & H4 & _) & _).
  split; [repeat split|].
  split; [exact H1|]. split; [exact H2|]. split; [exact H3 | exact H4].
Defined.

(** ** Which render the sampling loop belongs to *)

Lemma made_while_idle_ext w w' :
  frames (sched w') = frames (sched w) ->
  requests (cap w') = requests (cap w) ->
  timers (sched w') = timers (sched w) ->
  made_while_idle w -> made_while_idle w'.
Proof. unfold made_while_idle. now intros -> -> ->. Qed.

Lemma sched_connectWebSocket w : sched (connectWebSocket w) = sched w.
Proof. unfold connectWebSocket. now destruct (readyState w) as [[]|]. Qed.

Lemma cap_connectWebSocket w : cap (connectWebSocket w) = cap w.
Proof. unfold connectWebSocket. now destruct (readyState w) as [[]|]. Qed.

Lemma sched_connected_first r w : sched (connected_first r w) = sched w.
Proof.
  unfold connected_first. destruct (isConnected r); simpl; [reflexivity|].
  apply sched_connectWebSocket.
Qed.

Lemma sched_send f w : sched (send f w) = sched w.
Proof. unfold send. now destruct (readyState w) as [[]|]. Qed.

Lemma cap_send f w : cap (send f w) = cap w.
Proof. unfold send. now destruct (readyState w) as [[]|]. Qed.

Lemma idle_handleSendMessage r w :
  made_while_idle w -> made_while_idle (handleSendMessage r w).
Proof.
  intros (Hf & Hq & Ht). unfold handleSendMessage. fold (connected_first r w).
  destruct (trim (inputText r)); [now repeat split|].
  destruct (is_open (connected_first r w)); simpl.
  - unfold made_while_idle. simpl.
    now rewrite sched_send, cap_send, sched_connected_first, cap_connected_first.
  - unfold made_while_idle. simpl. rewrite sched_connected_first, cap_connected_first.
    repeat split; try assumption.
    apply Forall_app. split; [assumption|]. now repeat constructor.
Qed.

Lemma idle_startRecording r w :
  isRecording r = false -> made_while_idle w -> made_while_idle (startRecording r w).
Proof.
  intros Hr (Hf & Hq & Ht). unfold startRecording. fold (connected_first r w).
  unfold made_while_idle. simpl. rewrite sched_connected_first, cap_connected_first.
  repeat split; try assumption.
  apply Forall_app. split; [assumption|]. now repeat constructor.
Qed.

Lemma sched_stop_tracks k w : sched (stop_tracks k w) = sched w.
Proof. unfold stop_tracks. now destruct (recorders (cap w) !! k). Qed.

Lemma requests_stop_tracks k w : requests (cap (stop_tracks k w)) = requests (cap w).
Proof. unfold stop_tracks. now destruct (recorders (cap w) !! k). Qed.

Lemma Forall_filter_keep {A} (P Q : A -> Prop) `{forall x, Decision (Q x)} (l : list A) :
  Forall P l -> Forall P (filter Q l).
Proof.
  induction 1 as [|a l Ha _ IH]; [constructor|].
  rewrite filter_cons. destruct (decide (Q a)); [constructor|]; assumption.
Qed.

Lemma idle_cancelFrame w : made_while_idle w -> made_while_idle (cancelFrame w).
Proof.
  intros (Hf & Hq & Ht). unfold cancelFrame.
  destruct (animationFrameRef (sched w)) as [[|id]|]; try now repeat split.
  unfold made_while_idle. simpl. repeat split; try assumption.
  now apply Forall_filter_keep.
Qed.

Lemma idle_stopRecording r w :
  made_while_idle w -> made_while_idle (stopRecording r w).
Proof.
  intros H. unfold stopRecording.
  destruct (mediaRecorderRef (cap w)) as [k|]; [|assumption].
  destruct (isRecording r); [|assumption].
  apply idle_cancelFrame.
  apply (made_while_idle_ext w); [| | |assumption]; simpl.
  - now rewrite sched_stop_tracks.
  - now rewrite requests_stop_tracks.
  - now rewrite sched_stop_tracks.
Qed.

(** In a render that was not recording, [draw] asks for the next frame and
    does nothing else. *)
Lemma idle_requestAnimationFrame r w :
  isRecording r = false -> made_while_idle w ->
  made_while_idle (requestAnimationFrame r w).
Proof.
  intros Hr (Hf & Hq & Ht). unfold made_while_idle. simpl.
  repeat split; try assumption.
  apply Forall_app. split; [assumption|]. now repeat constructor.
Qed.

Lemma idle_cancelAnimationFrame id w :
  made_while_idle w -> made_while_idle (cancelAnimationFrame id w).
Proof.
  intros (Hf & Hq & Ht). unfold made_while_idle. simpl.
  repeat split; try assumption. now apply Forall_filter_keep.
Qed.

Lemma idle_run_frame s w f :
  isRecording (snd f) = false -> made_while_idle w -> made_while_idle (run_frame s w f).
Proof.
  intros Hr H. unfold run_frame. destruct (pending _ w); [|assumption].
  rewrite draw_idle by assumption.
  apply idle_requestAnimationFrame; [assumption|].
  now apply idle_cancelAnimationFrame.
Qed.

Lemma idle_frames_fold s fs w :
  Forall (fun f => isRecording (snd f) = false) fs ->
  made_while_idle w -> made_while_idle (fold_left (run_frame s) fs w).
Proof.
  intros Hfs. revert w. induction Hfs as [|f fs Hf _ IH]; intros w H; [assumption|].
  simpl. apply IH. now apply idle_run_frame.
Qed.

Lemma idle_animationFrame s w :
  made_while_idle w -> made_while_idle (animationFrame s w).
Proof.
  intros H. unfold animationFrame. apply idle_frames_fold.
  - exact (proj1 H).
  - apply (made_while_idle_ext w); [reflexivity..|assumption].
Qed.

Lemma idle_drawVisualizer r data w :
  isRecording r = false -> made_while_idle w ->
  made_while_idle (drawVisualizer r data w).
Proof.
  intros Hr H. unfold drawVisualizer.
  destruct (analyserRef (cap w) && canvasRef (cap w)); [|assumption].
  rewrite draw_idle by assumption. now apply idle_requestAnimationFrame.
Qed.

Lemma idle_resume r data w :
  isRecording r = false -> made_while_idle w ->
  made_while_idle (startRecording_resume r data w).
Proof.
  intros Hr H. unfold startRecording_resume.
  match goal with |- context [drawVisualizer r data ?W] =>
    assert (made_while_idle (drawVisualizer r data W)) as H'
  end.
  { apply idle_drawVisualizer; [assumption|].
    apply (made_while_idle_ext w); [reflexivity..|assumption]. }
  revert H'.
  match goal with |- context [drawVisualizer r data ?W] =>
    generalize (drawVisualizer r data W)
  end.
  intros w' H'. apply (made_while_idle_ext w'); [reflexivity..|assumption].
Qed.

Lemma idle_step JSON_parse atob e w :
  made_while_idle w -> made_while_idle (step JSON_parse atob e w).
Proof.
  intros H. pose proof H as (Hf & Hq & Ht).
  destruct e; simpl; try (destruct (isOpen (react w)); [|assumption]).
  - destruct (isOpen (react w)) eqn:Ho; [assumption|].
    unfold clickChat, toggleChat. rewrite Ho. simpl.
    destruct (isConnected (react w)); simpl;
      apply (made_while_idle_ext w); try assumption;
      rewrite ?sched_connectWebSocket, ?cap_connectWebSocket; reflexivity.
  - apply (made_while_idle_ext w); [reflexivity..|assumption].
  - apply (made_while_idle_ext w); [reflexivity..|assumption].
  - unfold clickMic, toggleRecording. destruct (isRecording (react w)) eqn:Hr.
    + now apply idle_stopRecording.
    + now apply idle_startRecording.
  - now apply idle_handleSendMessage.
  - destruct (input_enabled w); [|assumption]. now apply idle_handleSendMessage.
  - destruct (input_enabled w); assumption.
  - destruct (readyState w) as [[]|]; assumption.
  - destruct (readyState w) as [[]|]; assumption.
  - destruct (readyState w) as [[]|]; try assumption.
    destruct data as [b | raw]; simpl.
    + apply (made_while_idle_ext w); [reflexivity..|assumption].
    + unfold onmessage_try. destruct (JSON_parse raw) as [| |data];
        try (apply (made_while_idle_ext w); [reflexivity..|assumption]).
      destruct (truthy (data_audio data));
        [destruct (atob (toString (data_audio data)))|];
        repeat match goal with |- context [if ?c then _ else _] => destruct c end;
        apply (made_while_idle_ext w); (reflexivity || assumption).
  - unfold mediaGranted. destruct (requests (cap w) !! i) as [r|] eqn:E; [|assumption].
    apply idle_resume.
    + rewrite Forall_forall in Hq. apply Hq. apply list_elem_of_lookup. eauto.
    + unfold made_while_idle. simpl. repeat split; try assumption.
      now apply Forall_delete.
  - unfold mediaDenied. destruct (requests (cap w) !! i) as [r|] eqn:E; [|assumption].
    unfold made_while_idle. simpl. repeat split; try assumption.
    now apply Forall_delete.
  - unfold fireTimer. destruct (timers (sched w) !! i) as [[d cb]|] eqn:E; [|assumption].
    assert (made_while_idle (remove_timer i w)) as Hrem.
    { unfold made_while_idle. simpl. repeat split; try assumption.
      now apply Forall_delete. }
    destruct cb as [r | r].
    + now apply idle_handleSendMessage.
    + apply idle_startRecording; [|assumption].
      rewrite Forall_forall in Ht.
      apply (Ht (d, Restart r)). apply list_elem_of_lookup. eauto.
  - now apply idle_animationFrame.
  - destruct (browser_event e); [|assumption].
    apply (made_while_idle_ext w); [reflexivity..|assumption].
  - unfold dataAvailable, mediaRecorder_ondataavailable.
    destruct (recState <$> recorders (cap w) !! k) as [[]|]; try assumption;
      (destruct (0 <? length data)%nat; [|assumption]);
      apply (made_while_idle_ext w); (reflexivity || assumption).
  - unfold recorderStopped, mediaRecorder_onstop.
    destruct (recState <$> recorders (cap w) !! k) as [[]|]; try assumption.
    match goal with |- context [match ?x with Some _ => _ | None => _ end] =>
      destruct x end;
      [match goal with |- context [if ?c then _ else _] => destruct c end|];
      apply (made_while_idle_ext w); try assumption; simpl;
      rewrite ?sched_send, ?cap_send; reflexivity.
Qed.

Lemma idle_run JSON_parse atob es w :
  made_while_idle w -> made_while_idle (run JSON_parse atob es w).
Proof.
  revert w. induction es as [|e es IH]; intros w H; [assumption|].
  simpl. apply IH. now apply idle_step.
Qed.

Lemma idle_mount now : made_while_idle (mount now).
Proof. repeat split; constructor. Qed.

Lemma same_but_frames_refl w : same_but_frames w w.
Proof. now repeat split. Qed.

Lemma same_but_frames_trans w1 w2 w3 :
  same_but_frames w1 w2 -> same_but_frames w2 w3 -> same_but_frames w1 w3.
Proof.
  unfold same_but_frames.
  intros (A1 & A2 & A3 & A4 & A5 & A6 & A7) (B1 & B2 & B3 & B4 & B5 & B6 & B7).
  repeat split; congruence.
Qed.

Lemma inert_run_frame s w f :
  isRecording (snd f) = false -> same_but_frames w (run_frame s w f).
Proof.
  intros Hr. unfold run_frame. destruct (pending _ w); [|apply same_but_frames_refl].
  rewrite draw_idle by assumption. now repeat split.
Qed.

Lemma inert_frames_fold s fs w :
  Forall (fun f => isRecording (snd f) = false) fs ->
  same_but_frames w (fold_left (run_frame s) fs w).
Proof.
  intros Hfs. revert w. induction Hfs as [|f fs Hf _ IH]; intros w;
    [apply same_but_frames_refl|].
  simpl. eapply same_but_frames_trans; [|apply IH]. now apply inert_run_frame.
Qed.

Lemma inert_animationFrame s w :
  made_while_idle w -> same_but_frames w (animationFrame s w).
Proof.
  intros (Hf & _). unfold animationFrame.
  eapply same_but_frames_trans; [|apply inert_frames_fold; exact Hf].
  now repeat split.
Qed.

Lemma inert_sampling ss w :
  made_while_idle w -> same_but_frames w (sampling ss w).
Proof.
  revert w. induction ss as [|s ss IH]; intros w H; [apply same_but_frames_refl|].
  simpl. eapply same_but_frames_trans; [apply inert_animationFrame; exact H|].
  apply IH. now apply idle_animationFrame.
Qed.

(** C1, as the code behaves.  Every sampling loop is the [draw] of a render
    that was not recording, so its test [isHandsFree && isRecording] fails
    for as long as it runs: whatever the widget has gone through, no run of
    samples stops the playback or sends anything.  In a hands-free session
    with a clip playing, two loud samples leave the clip playing and the
    interrupt unsent. *)
Theorem barge_in_never_fires
  (JSON_parse : string -> Parsed) (atob : string -> option string)
  (es : list Event) (t0 : Z) (ss : list Sample) :
  (let w := run JSON_parse atob es (mount t0) in
   trace (sampling ss w) = trace w
   /\ play (sampling ss w) = play w
   /\ wire (conn (sampling ss w)) = wire (conn w))
  /\ (let w := run no_parse no_atob
                (hands_free_session ++ [SocketMessage (BlobData [Byte.x01])]) (mount 5) in
      let w' := sampling [ {| now := 1000; dataArray := loud |};
                           {| now := 1016; dataArray := loud |} ] w in
      isHandsFree (react w) = true /\ isRecording (react w) = true
      /\ playback_busy w = true /\ speech loud = true
      /\ frames (sched w) <> []
      /\ trace w' = [NewWebSocket; GetUserMedia]
      /\ isPlayingRef (play w') = true
      /\ wire (conn w') = []).
Proof.
  split.
  - intros w.
    destruct (inert_sampling ss w) as (Ht & Hp & Hc & _).
    { apply idle_run, idle_mount. }
    rewrite Ht, Hp, Hc. auto.
  - vm_compute. repeat split; congruence.
Qed.

(** C2, as the code behaves.  For the same reason no silence, however long,
    stops the recorder, resets anything or schedules a restart.  In a
    hands-free session a loud sample followed by 1.5 s of quiet samples
    leaves the recorder recording and no restart waiting. *)
Theorem silence_never_ends_the_turn
  (JSON_parse : string -> Parsed) (atob : string -> option string)
  (es : list Event) (t0 : Z) (ss : list Sample) :
  (let w := run JSON_parse atob es (mount t0) in
   trace (sampling ss w) = trace w
   /\ timers (sched (sampling ss w)) = timers (sched w)
   /\ recorders (cap (sampling ss w)) = recorders (cap w)
   /\ isRecording (react (sampling ss w)) = isRecording (react w)
   /\ silenceStartRef (sched (sampling ss w)) = silenceStartRef (sched w))
  /\ (let w := run no_parse no_atob hands_free_session (mount 5) in
      let w' := sampling [ {| now := 1000; dataArray := loud |};
                           {| now := 1100; dataArray := quiet |};
                           {| now := 1800; dataArray := quiet |};
                           {| now := 2500; dataArray := quiet |} ] w in
      isHandsFree (react w) = true /\ isRecording (react w) = true
      /\ speech loud = true /\ speech quiet = false
      /\ frames (sched w) <> []
      /\ trace w' = [NewWebSocket; GetUserMedia]
      /\ timers (sched w') = []
      /\ recState <$> recorders (cap w') !! 0%nat = Some recording
      /\ isRecording (react w') = true).
Proof.
  split.
  - intros w.
    destruct (inert_sampling ss w) as (Ht & _ & _ & Hr & Hc & Htim & Hs).
    { apply idle_run, idle_mount. }
    rewrite Ht, Hr, Hc, Htim, Hs. auto.
  - vm_compute. repeat split; congruence.
Qed.

(** ** The branches of [draw] behind its test

    What the hands-free branches do in a render for which the test
    [isHandsFree && isRecording] holds.  By [idle_run] no loop of the widget
    belongs to such a render. *)

Section Guarded.

Variable r : Render.
Hypothesis hands_free : isHandsFree r = true.
Hypothesis is_recording : isRecording r = true.

Lemma draw_speech data w :
  speech data = true ->
  draw r data w =
  let w1 := set_silenceStart None (requestAnimationFrame r w) in
  if playback_busy w then send InterruptFrame (stopPlayback w1) else w1.
Proof.
  intros Hs. unfold draw. rewrite hands_free, is_recording, Hs. reflexivity.
Qed.

Lemma draw_silence_begins data w :
  speech data = false ->
  silenceStartRef (sched w) = None \/ silenceStartRef (sched w) = Some 0 ->
  draw r data w = set_silenceStart (Some (clock (sched w))) (requestAnimationFrame r w).
Proof.
  intros Hs H. unfold draw. rewrite hands_free, is_recording, Hs. simpl.
  now destruct H as [-> | ->].
Qed.

Lemma draw_silence_lasts data w t0 :
  speech data = false -> silenceStartRef (sched w) = Some t0 -> t0 <> 0 ->
  draw r data w =
  if 600 <? clock (sched w) - t0
  then setTimeout (Restart r) 100
         (set_silenceStart None (stopRecording r (requestAnimationFrame r w)))
  else requestAnimationFrame r w.
Proof.
  intros Hs H Ht. unfold draw. rewrite hands_free, is_recording, Hs. simpl.
  rewrite H. now destruct t0.
Qed.

Lemma animationFrame_single s w id :
  frames (sched w) = [(id, r)] ->
  animationFrame s w = draw r (dataArray s) (cancelAnimationFrame id (set_clock (now s) w)).
Proof.
  intros H. unfold animationFrame. simpl. rewrite H. simpl.
  unfold run_frame, pending. simpl. rewrite H. simpl.
  now rewrite Nat.eqb_refl.
Qed.

Lemma cancel_single s w id :
  frames (sched w) = [(id, r)] ->
  frames (sched (cancelAnimationFrame id (set_clock (now s) w))) = [].
Proof.
  intros H. simpl. rewrite H. rewrite filter_cons_False; [reflexivity|].
  simpl. intros Hne. now apply Hne.
Qed.

(** Speech with nothing to interrupt changes nothing but the silence timer. *)
Lemma speech_idle_tick s w :
  looping r w -> speech (dataArray s) = true -> playback_busy w = false ->
  let w' := animationFrame s w in
  looping r w' /\ trace w' = trace w /\ play w' = play w /\ conn w' = conn w.
Proof.
  intros [id Hf] Hs Hb. cbv zeta. rewrite (animationFrame_single s w id Hf).
  rewrite draw_speech by assumption. cbv zeta.
  change (playback_busy (cancelAnimationFrame id (set_clock (now s) w)))
    with (playback_busy w). rewrite Hb.
  split; [|now repeat split].
  eexists. simpl. rewrite Hf. rewrite filter_cons_False; [reflexivity|].
  simpl. intros Hne. now apply Hne.
Qed.

Lemma speech_idle_run ss w :
  looping r w -> Forall (fun s => speech (dataArray s) = true) ss ->
  playback_busy w = false ->
  let w' := sampling ss w in
  looping r w' /\ trace w' = trace w /\ play w' = play w /\ conn w' = conn w.
Proof.
  intros Hl Hss. revert w Hl. induction Hss as [|s ss Hs _ IH]; intros w Hl Hb.
  - now repeat split.
  - destruct (speech_idle_tick s w Hl Hs Hb) as (Hl1 & Ht1 & Hp1 & Hc1).
    cbv zeta. simpl.
    destruct (IH (animationFrame s w) Hl1) as (Hl2 & Ht2 & Hp2 & Hc2).
    { unfold playback_busy in *. now rewrite Hp1. }
    cbv zeta in *. split; [assumption|]. repeat split; congruence.
Qed.

(** Behind the test, a run of samples above the threshold that starts while
    a clip is queued or playing stops the playback and sends the interrupt
    at its first sample and at no other. *)
Lemma guarded_barge_in_once s ss w :
  looping r w -> is_open w = true -> playback_busy w = true ->
  Forall (fun s => speech (dataArray s) = true) (s :: ss) ->
  let w' := sampling (s :: ss) w in
  trace w' = trace w ++ [StopPlayback; Send InterruptFrame]
  /\ wire (conn w') = wire (conn w) ++ [InterruptFrame]
  /\ play w' = stopAudioPlayback (play w)
  /\ playback_busy w' = false.
Proof.
  intros [id Hf] Ho Hb Hss. apply Forall_cons in Hss as [Hs Hss]. cbv zeta. simpl.
  assert (E : animationFrame s w =
              send InterruptFrame
                (stopPlayback (set_silenceStart None
                   (requestAnimationFrame r (cancelAnimationFrame id (set_clock (now s) w)))))).
  { rewrite (animationFrame_single s w id Hf). rewrite draw_speech by assumption.
    cbv zeta.
    change (playback_busy (cancelAnimationFrame id (set_clock (now s) w)))
      with (playback_busy w). now rewrite Hb. }
  rewrite send_open in E by exact Ho.
  destruct (speech_idle_run ss (animationFrame s w)) as (_ & Ht & Hp & Hc).
  - rewrite E. eexists. simpl. rewrite Hf. rewrite filter_cons_False; [reflexivity|].
    simpl. intros Hne. now apply Hne.
  - exact Hss.
  - rewrite E. reflexivity.
  - cbv zeta in *. unfold playback_busy. rewrite Ht, Hp, Hc, E. simpl.
    rewrite <- app_assoc. auto.
Qed.

Lemma no_loop_run ss w :
  frames (sched w) = [] ->
  let w' := sampling ss w in
  frames (sched w') = [] /\ same_but_frames w w'.
Proof.
  revert w. induction ss as [|s ss IH]; intros w Hf.
  - split; [assumption | apply same_but_frames_refl].
  - cbv zeta. simpl.
    assert (E : animationFrame s w = set_clock (now s) w).
    { unfold animationFrame. simpl. now rewrite Hf. }
    destruct (IH (animationFrame s w)) as [Hf' Hs'].
    { now rewrite E. }
    split; [assumption|].
    eapply same_but_frames_trans; [|exact Hs']. rewrite E. now repeat split.
Qed.

Lemma silence_lasting_run k rec t0 ss w :
  looping r w -> silenceStartRef (sched w) = Some t0 -> t0 <> 0 ->
  mediaRecorderRef (cap w) = Some k -> recorders (cap w) !! k = Some rec ->
  Forall (fun s => speech (dataArray s) = false) ss ->
  Exists (fun s => 600 < now s - t0) ss ->
  let w' := sampling ss w in
  trace w' = trace w ++ [RecorderStop k]
  /\ timers (sched w') = timers (sched w) ++ [(100, Restart r)]
  /\ silenceStartRef (sched w') = None
  /\ frames (sched w') = []
  /\ isRecording (react w') = false.
Proof.
  intros Hl Hs0 Ht0 Hm Hk Hss. revert w Hl Hs0 Hm Hk.
  induction Hss as [|s ss Hs _ IH]; intros w [id Hf] Hs0 Hm Hk Hex.
  - inversion Hex.
  - cbv zeta. simpl.
    pose (w0 := requestAnimationFrame r (cancelAnimationFrame id (set_clock (now s) w))).
    assert (E : animationFrame s w =
                if 600 <? now s - t0
                then setTimeout (Restart r) 100
                       (set_silenceStart None (stopRecording r w0))
                else w0).
    { rewrite (animationFrame_single s w id Hf).
      now rewrite (draw_silence_lasts _ _ t0) by assumption. }
    assert (Hf0 : frames (sched w0) = [(S (frameCounter (sched w)), r)]).
    { simpl. rewrite Hf. rewrite filter_cons_False; [reflexivity|].
      simpl. intros Hne. now apply Hne. }
    destruct (600 <? now s - t0) eqn:Hlt.
    + assert (Hstop : stopRecording r w0 = stopped_world k rec w0)
        by now apply stopRecording_active.
      rewrite Hstop in E.
      destruct (no_loop_run ss (animationFrame s w)) as (Hfr & Ht & _ & _ & Hr & _ & Htim & Hsil).
      { rewrite E. unfold stopped_world, cancelFrame. simpl. rewrite Hf.
        rewrite filter_cons_False by (simpl; intros Hne; now apply Hne). simpl.
        rewrite filter_cons_False; [reflexivity|]. simpl. intros Hne. now apply Hne. }
      cbv zeta in *. rewrite Ht, Hr, Htim, Hsil, Hfr, E.
      unfold stopped_world, cancelFrame. simpl. auto.
    + apply Exists_cons in Hex as [Hex | Hex]; [apply Z.ltb_ge in Hlt; lia|].
      rewrite E.
      destruct (IH w0) as (H1 & H2 & H3 & H4 & H5); try assumption.
      * now exists (S (frameCounter (sched w))).
      * cbv zeta in *. auto.
Qed.

(** Behind the test, silence that lasts more than 600 ms after speech ends
    the turn once: the first sample past 600 ms stops the recorder, resets
    the silence timer, leaves one restart 100 ms later and cancels the loop,
    so that no later sample does it again. *)
Lemma guarded_silence_cycle_once k rec s0 ss w :
  looping r w -> silenceStartRef (sched w) = None ->
  mediaRecorderRef (cap w) = Some k -> recorders (cap w) !! k = Some rec ->
  Forall (fun s => speech (dataArray s) = false) (s0 :: ss) ->
  now s0 <> 0 ->
  Exists (fun s => 600 < now s - now s0) ss ->
  let w' := sampling (s0 :: ss) w in
  trace w' = trace w ++ [RecorderStop k]
  /\ timers (sched w') = timers (sched w) ++ [(100, Restart r)]
  /\ silenceStartRef (sched w') = None
  /\ frames (sched w') = []
  /\ isRecording (react w') = false.
Proof.
  intros [id Hf] Hs0 Hm Hk Hss Hnow Hex. apply Forall_cons in Hss as [Hs Hss].
  cbv zeta. simpl.
  assert (E : animationFrame s0 w =
              set_silenceStart (Some (now s0))
                (requestAnimationFrame r (cancelAnimationFrame id (set_clock (now s0) w)))).
  { rewrite (animationFrame_single s0 w id Hf).
    rewrite draw_silence_begins; [reflexivity | assumption | now left]. }
  destruct (silence_lasting_run k rec (now s0) ss (animationFrame s0 w))
    as (H1 & H2 & H3 & H4 & H5); try assumption; try (rewrite E; assumption).
  - rewrite E. eexists. simpl. rewrite Hf. rewrite filter_cons_False; [reflexivity|].
    simpl. intros Hne. now apply Hne.
  - rewrite E. reflexivity.
  - cbv zeta in *. rewrite H1, H2, H3, H4, H5, E. simpl. auto.
Qed.

End Guarded.
